(** * flashback replayer: the replay driver ([replay/src/main.go])

    A shallow embedding of the command-line driver of the replayer:
    flag validation ([parseFlags]), the retry policy of a worker
    ([RetryOnSocketFailure]), the start-up sequence of [main], and the
    goroutines [main] leaves running (the workers [fetch], the reporter
    and the coordinator loop), the latter as a scheduler-driven step
    function over a global state.

    Everything the driver calls in package [replay] and in [mgo] is an
    external collaborator: its results are read from an environment
    [Env], and each call is recorded in a trace of events. *)

From Stdlib Require Import ZArith String List Bool Lia.
From stdpp Require Import base list.
Import ListNotations.

Local Open Scope string_scope.
Local Open Scope list_scope.
Local Open Scope Z_scope.

(** ** Data *)

(** Go's [error] values as the driver tells them apart: the type switch
    of [RetryOnSocketFailure] recognises [*mgo.QueryError] and
    [*mgo.LastError]; [mgo.ErrNotFound] is one particular value,
    compared by identity; every other error (a socket error, an
    [errors.New] value, ...) is an [ErrorString]. *)
Inductive error : Type :=
| QueryError (code : Z) (message : string)
| LastError (code : Z) (message : string)
| ErrNotFound
| ErrorString (message : string).

Definition errors_New (s : string) : error := ErrorString s.

(** [err == mgo.ErrNotFound] *)
Definition is_ErrNotFound (e : error) : bool :=
  match e with ErrNotFound => true | _ => false end.

(** Modelled from the spec: the type [Op] of package [replay] (not part
    of the driver): a recorded operation with a timestamp, an
    operation-type tag and an opaque payload. *)
Record Op : Type := mkOp { timestamp : Z; optype : string; payload : string }.

(** [*Logger] of package [replay]: the two sinks it was created for. *)
Record Logger : Type := mkLogger { lg_stdout : string; lg_stderr : string }.

(** The package-level variables of the driver ([var ( ... )]), as set by
    [flag.Parse].  [sampleRate] (a float64 handed to the statistics
    collaborators only) is left out. *)
Record Flags : Type := mkFlags {
  maxOps : Z;
  numSkipOps : Z;
  opsFilename : string;
  socketTimeout : Z;
  startTime : Z;
  style : string;
  url : string;
  verbose : bool;
  workers : Z;
  stderr : string;
  stdout : string;
  logger : option Logger
}.

Definition DEFAULT_MGO_SOCKET_TIMEOUT : Z := 60000000000.

(** The defaults registered in [init]. *)
Definition default_flags : Flags :=
  {| maxOps := 0; numSkipOps := 0; opsFilename := ""; socketTimeout := DEFAULT_MGO_SOCKET_TIMEOUT;
     startTime := 0; style := ""; url := ""; verbose := false; workers := 10;
     stderr := ""; stdout := ""; logger := None |}.

Definition set_maxOps (v : Z) (g : Flags) : Flags :=
  {| maxOps := v; numSkipOps := numSkipOps g; opsFilename := opsFilename g;
     socketTimeout := socketTimeout g; startTime := startTime g; style := style g;
     url := url g; verbose := verbose g; workers := workers g;
     stderr := stderr g; stdout := stdout g; logger := logger g |}.

Definition set_logger (l : option Logger) (g : Flags) : Flags :=
  {| maxOps := maxOps g; numSkipOps := numSkipOps g; opsFilename := opsFilename g;
     socketTimeout := socketTimeout g; startTime := startTime g; style := style g;
     url := url g; verbose := verbose g; workers := workers g;
     stderr := stderr g; stdout := stdout g; logger := l |}.

(** The readers and dispatchers [main] builds, as the constructor calls
    that made them. *)
Inductive OpsReader : Type :=
| FileByLineOpsReader (filename : string)
| CyclicOpsReader (made : OpsReader).

Inductive Dispatcher : Type :=
| BestEffortOpsDispatcher (reader : OpsReader) (limit : Z)
| ByTimeOpsDispatcher (reader : OpsReader) (limit : Z).

(** What the logger is asked to write. *)
Inductive LogEntry : Type :=
| Info_report_for_duty (id : nat)        (* "Worker #%d report for duty" *)
| Info_done (id : nat)                   (* "Worker #%d done!" *)
| Info_executed (n : Z)                  (* "Executed %d ops, ..." and the per-type lines *)
| Error_retrying (e : error)             (* "retrying mongo query after error: ", err *)
| Error_op (e : error).                  (* logger.Error(err) in fetch *)

(** The observable actions of a run, in the order they happen. *)
Inductive Event : Type :=
| EvGOMAXPROCS (n : Z)
| EvNewLogger (out err : string)
| EvOpenFile (filename : string)
| EvNewCyclicOpsReader
| EvSetStartTime (r : OpsReader) (ts : Z)
| EvSkipOps (r : OpsReader) (n : Z)
| EvNewDispatcher (d : Dispatcher)
| EvGoFetch (id : nat)
| EvGoReporter
| EvLog (l : LogEntry)
| EvDial (id : nat) (u : string)
| EvSetSocketTimeout (id : nat) (ns : Z)
| EvPull (id : nat) (v : option Op)
| EvExecute (id : nat) (op : Op) (r : option error)
| EvRefresh (id : nat)
| EvAdd (id : nat)
| EvExit (id : nat)
| EvClose (id : nat)
| EvSleep (ns : Z)
| EvReport.

(** The collaborators.  Each answer may depend on what happened so far. *)
Record Env : Type := mkEnv {
  NewLogger : string -> string -> option Logger * option error;
  OpenFile : string -> option error;
  SetStartTime : OpsReader -> Z -> option error;
  SkipOps : OpsReader -> Z -> option error;
  Dial : list Event -> string -> option error;
  Execute : list Event -> nat -> Op -> option error
}.

(** ** Sequential code: state, panics, and a monad for both *)

Record World : Type := mkWorld { globals : Flags; trace : list Event }.

Inductive Result (A : Type) : Type :=
| Ok (a : A) (w : World)
| Panicked (e : error) (w : World).
Arguments Ok {A} a w.
Arguments Panicked {A} e w.

Definition M (A : Type) : Type := World -> Result A.

Definition ret {A} (a : A) : M A := fun w => Ok a w.

Definition bind {A B} (m : M A) (k : A -> M B) : M B :=
  fun w => match m w with
           | Ok a w' => k a w'
           | Panicked e w' => Panicked e w'
           end.

Declare Scope go_scope.
Delimit Scope go_scope with go.
Notation "x <- m ;; k" := (bind m (fun x => k))
  (at level 90, m at next level, right associativity) : go_scope.
Notation "m ;;; k" := (bind m (fun _ => k))
  (at level 90, right associativity) : go_scope.
Local Open Scope go_scope.

Definition panic {A} (e : error) : M A := fun w => Panicked e w.
Definition get : M Flags := fun w => Ok (globals w) w.
Definition modify (f : Flags -> Flags) : M unit :=
  fun w => Ok tt {| globals := f (globals w); trace := trace w |}.
Definition history : M (list Event) := fun w => Ok (trace w) w.
Definition emit (e : Event) : M unit :=
  fun w => Ok tt {| globals := globals w; trace := trace w ++ [e] |}.
Definition when (b : bool) (m : M unit) : M unit := if b then m else ret tt.

(** [func panicOnError(err error)] *)
Definition panicOnError (err : option error) : M unit :=
  match err with
  | Some e => panic e
  | None => ret tt
  end.

(** The logger's sinks: [logger.Error] and [logger.Infof]. *)
Definition logger_Error (l : LogEntry) : M unit := emit (EvLog l).
Definition logger_Infof (l : LogEntry) : M unit := emit (EvLog l).

Section Driver.

Variable env : Env.

(** [func parseFlags() error], after [flag.Parse] has filled the
    variables. *)
Definition parseFlags : M (option error) :=
  g <- get ;;
  if negb (style g =? "stress")%string && negb (style g =? "real")%string then
    ret (Some (errors_New (String.append "Cannot recognize the style: " (style g))))
  else if workers g <=? 0 then
    ret (Some (errors_New "`workers` should be a positive number"))
  else
    when (maxOps g =? 0) (modify (set_maxOps 4294967295)) ;;;
    emit (EvNewLogger (stdout g) (stderr g)) ;;;
    let '(l, err) := NewLogger env (stdout g) (stderr g) in
    modify (set_logger l) ;;;
    match err with
    | Some _ => ret None
    | None => ret None
    end.

(** [session.Refresh()] on the session of worker [session]. *)
Definition session_Refresh (session : nat) : M unit := emit (EvRefresh session).

(** [func RetryOnSocketFailure(block func() error, session *mgo.Session) error] *)
Definition RetryOnSocketFailure (block : M (option error)) (session : nat) : M (option error) :=
  err <- block ;;
  match err with
  | None => ret None
  | Some e =>
    match e with
    | QueryError _ _ => ret err
    | LastError _ _ => ret err
    | _ =>
      if is_ErrNotFound e then ret err
      else
        session_Refresh session ;;;
        logger_Error (Error_retrying e) ;;;
        block
    end
  end.

(** *** Start-up of [main] (lines 111-148 and the [go] statements) *)

(** [NewFileByLineOpsReader(opsFilename, logger)] *)
Definition NewFileByLineOpsReader (filename : string) : M (option error * OpsReader) :=
  emit (EvOpenFile filename) ;;;
  ret (OpenFile env filename, FileByLineOpsReader filename).

(** Modelled from the spec: [NewCyclicOpsReader(maker, logger)] of
    package [replay] (absent from the driver) asks [maker] for the
    reader it wraps when it is built. *)
Definition NewCyclicOpsReader (maker : M OpsReader) : M OpsReader :=
  emit EvNewCyclicOpsReader ;;;
  made <- maker ;;
  ret (CyclicOpsReader made).

Definition reader_SetStartTime (reader : OpsReader) (ts : Z) : M (option error) :=
  emit (EvSetStartTime reader ts) ;;;
  ret (SetStartTime env reader ts).

Definition reader_SkipOps (reader : OpsReader) (n : Z) : M (option error) :=
  emit (EvSkipOps reader n) ;;;
  ret (SkipOps env reader n).

Definition NewBestEffortOpsDispatcher (reader : OpsReader) (limit : Z) : M Dispatcher :=
  emit (EvNewDispatcher (BestEffortOpsDispatcher reader limit)) ;;;
  ret (BestEffortOpsDispatcher reader limit).

Definition NewByTimeOpsDispatcher (reader : OpsReader) (limit : Z) : M Dispatcher :=
  emit (EvNewDispatcher (ByTimeOpsDispatcher reader limit)) ;;;
  ret (ByTimeOpsDispatcher reader limit).

(** [for i := 0; i < workers; i++ { ...; go fetch(i, ...) }]; the
    statistics collector each worker is given belongs to package
    [replay] and is left out. *)
Fixpoint go_fetch_from (i : nat) (n : nat) : M unit :=
  match n with
  | O => ret tt
  | S n' => emit (EvGoFetch i) ;;; go_fetch_from (S i) n'
  end.

(** [main] up to the point where it starts waiting for the workers.
    The globals are only written by [parseFlags], so they are read once
    after it. *)
Definition main_startup : M Dispatcher :=
  emit (EvGOMAXPROCS 100) ;;;
  err <- parseFlags ;;
  panicOnError err ;;;
  g <- get ;;
  opsChan <-
    (if (style g =? "stress")%string then
       r <- NewFileByLineOpsReader (opsFilename g) ;;
       panicOnError (fst r) ;;;
       let reader := snd r in
       when (startTime g >? 0)
         (err <- reader_SetStartTime reader (startTime g) ;; panicOnError err) ;;;
       when (numSkipOps g >? 0)
         (err <- reader_SkipOps reader (numSkipOps g) ;; panicOnError err) ;;;
       NewBestEffortOpsDispatcher reader (maxOps g)
     else
       reader <- NewCyclicOpsReader
                   (r <- NewFileByLineOpsReader (opsFilename g) ;;
                    panicOnError (fst r) ;;;
                    ret (snd r)) ;;
       when (startTime g >? 0)
         (err <- reader_SetStartTime reader (startTime g) ;; panicOnError err) ;;;
       when (numSkipOps g >? 0)
         (err <- reader_SkipOps reader (numSkipOps g) ;; panicOnError err) ;;;
       NewByTimeOpsDispatcher reader (maxOps g)) ;;
  go_fetch_from 0 (Z.to_nat (workers g)) ;;;
  emit EvGoReporter ;;;
  ret opsChan.

(** *** The body of [fetch], between its synchronisation points *)

(** lines 156-163: greeting, [mgo.Dial], socket timeout. *)
Definition fetch_enter (id : nat) : M unit :=
  logger_Infof (Info_report_for_duty id) ;;;
  g <- get ;;
  h <- history ;;
  emit (EvDial id (url g)) ;;;
  panicOnError (Dial env h (url g)) ;;;
  emit (EvSetSocketTimeout id (socketTimeout g)).

(** [exec.Execute(op)], the body of [block]: the executor's answer is
    the collaborator's, given all that happened before. *)
Definition exec_Execute (id : nat) (op : Op) : M (option error) :=
  h <- history ;;
  let r := Execute env h id op in
  emit (EvExecute id op r) ;;;
  ret r.

(** lines 169-176: one op, from [block := ...] to the verbose log. *)
Definition fetch_op (id : nat) (op : Op) : M unit :=
  let block := exec_Execute id op in
  err <- RetryOnSocketFailure block id ;;
  g <- get ;;
  match verbose g, err with
  | true, Some e => logger_Error (Error_op e)
  | _, _ => ret tt
  end.

(** line 180 and the deferred [session.Close()]. *)
Definition fetch_leave (id : nat) : M unit :=
  logger_Infof (Info_done id) ;;;
  emit (EvClose id).

(** [report()] of the reporter goroutine. *)
Definition report (executed : Z) : M unit :=
  emit EvReport ;;;
  logger_Infof (Info_executed executed).

End Driver.

(** ** The goroutines *)

(** Go's [int] and [int64] are 64 bits wide here: [maxOps = 4294967295]
    does not compile otherwise. *)
Definition wrap64 (z : Z) : Z := (z + 2 ^ 63) mod 2 ^ 64 - 2 ^ 63.

(** [atomic.AddInt64(&x, d)] and [x += d] *)
Definition AddInt64 (x d : Z) : Z := wrap64 (x + d).

(** Where a worker stands in [fetch]. *)
Inductive WorkerPc : Type :=
| W_Start                (* line 156 *)
| W_Pull                 (* line 165: op := <-opsChan *)
| W_Run (op : Op)        (* line 169 *)
| W_Add                  (* line 177: atomic.AddInt64 *)
| W_Exit                 (* line 179: exit <- 1 *)
| W_Bye                  (* line 180 *)
| W_Done.

(** Where the reporter stands (lines 190-224). *)
Inductive ReporterPc : Type :=
| R_Start
| R_Check                (* line 220 *)
| R_Sleep                (* line 221 *)
| R_Report               (* line 222 *)
| R_Final                (* the deferred report() *)
| R_Done.

Inductive Status : Type :=
| Running
| Exited                 (* main returned *)
| Crashed (e : error).   (* a goroutine panicked *)

(** The process after start-up.  [feed] is what the dispatcher still
    has to deliver on [opsChan], [None] standing for the nil sentinel;
    [closed] tells whether the channel is closed once [feed] is used up
    (a receive then yields nil) or stays open (a receive then blocks). *)
Record State : Type := mkState {
  world : World;
  status : Status;
  feed : list (option Op);
  closed : bool;
  opsExecuted : Z;
  wpc : list WorkerPc;
  rpc : ReporterPc;
  received : Z
}.

Inductive Goroutine : Type := GoMain | GoFetch (id : nat) | GoReporter.

Section Scheduler.

Variable env : Env.

(** Run a stretch of sequential code in state [s]; [k] installs the
    new world.  A panic takes the process down. *)
Definition local (m : M unit) (s : State) (k : World -> State) : State :=
  match m (world s) with
  | Ok _ w => k w
  | Panicked e w =>
    mkState w (Crashed e) (feed s) (closed s) (opsExecuted s) (wpc s) (rpc s) (received s)
  end.

Definition log_event (e : Event) (w : World) : World :=
  mkWorld (globals w) (trace w ++ [e]).

Definition step_fetch (id : nat) (s : State) : option State :=
  match wpc s !! id with
  | None => None
  | Some W_Start =>
    Some (local (fetch_enter env id) s (fun w =>
      mkState w (status s) (feed s) (closed s) (opsExecuted s)
              (<[id := W_Pull]> (wpc s)) (rpc s) (received s)))
  | Some W_Pull =>
    match feed s with
    | Some op :: rest =>
      Some (mkState (log_event (EvPull id (Some op)) (world s)) (status s) rest (closed s)
                    (opsExecuted s) (<[id := W_Run op]> (wpc s)) (rpc s) (received s))
    | None :: rest =>
      Some (mkState (log_event (EvPull id None) (world s)) (status s) rest (closed s)
                    (opsExecuted s) (<[id := W_Exit]> (wpc s)) (rpc s) (received s))
    | [] =>
      if closed s then
        Some (mkState (log_event (EvPull id None) (world s)) (status s) [] (closed s)
                      (opsExecuted s) (<[id := W_Exit]> (wpc s)) (rpc s) (received s))
      else None
    end
  | Some (W_Run op) =>
    Some (local (fetch_op env id op) s (fun w =>
      mkState w (status s) (feed s) (closed s) (opsExecuted s)
              (<[id := W_Add]> (wpc s)) (rpc s) (received s)))
  | Some W_Add =>
    Some (mkState (log_event (EvAdd id) (world s)) (status s) (feed s) (closed s)
                  (AddInt64 (opsExecuted s) 1) (<[id := W_Pull]> (wpc s)) (rpc s) (received s))
  | Some W_Exit =>
    (* the send meets the receive of main's loop (lines 228-231) *)
    if received s <? workers (globals (world s)) then
      Some (mkState (log_event (EvExit id) (world s)) (status s) (feed s) (closed s)
                    (opsExecuted s) (<[id := W_Bye]> (wpc s)) (rpc s) (AddInt64 (received s) 1))
    else None
  | Some W_Bye =>
    Some (local (fetch_leave id) s (fun w =>
      mkState w (status s) (feed s) (closed s) (opsExecuted s)
              (<[id := W_Done]> (wpc s)) (rpc s) (received s)))
  | Some W_Done => None
  end.

(** [for received < workers { <-exit; received += 1 }]: main can only
    move by itself when the loop is over; it then returns, which ends
    the process. *)
Definition step_main (s : State) : option State :=
  if received s <? workers (globals (world s)) then None
  else Some (mkState (world s) Exited (feed s) (closed s) (opsExecuted s) (wpc s) (rpc s)
                     (received s)).

Definition with_rpc (pc : ReporterPc) (s : State) (w : World) : State :=
  mkState w (status s) (feed s) (closed s) (opsExecuted s) (wpc s) pc (received s).

Definition step_reporter (s : State) : option State :=
  match rpc s with
  | R_Start => Some (with_rpc R_Check s (world s))
  | R_Check =>
    if opsExecuted s <? maxOps (globals (world s))
    then Some (with_rpc R_Sleep s (world s))
    else Some (with_rpc R_Final s (world s))
  | R_Sleep => Some (with_rpc R_Report s (log_event (EvSleep (5 * 1000000000)) (world s)))
  | R_Report => Some (local (report (opsExecuted s)) s (with_rpc R_Check s))
  | R_Final => Some (local (report (opsExecuted s)) s (with_rpc R_Done s))
  | R_Done => None
  end.

(** One move of the goroutine the scheduler picks; [None] when that
    goroutine is blocked or finished, or the process is over. *)
Definition step (g : Goroutine) (s : State) : option State :=
  match status s with
  | Running =>
    match g with
    | GoMain => step_main s
    | GoFetch id => step_fetch id s
    | GoReporter => step_reporter s
    end
  | _ => None
  end.

(** A schedule; picking a goroutine that cannot move changes nothing. *)
Fixpoint run (sched : list Goroutine) (s : State) : State :=
  match sched with
  | [] => s
  | g :: sched' => run sched' (default s (step g s))
  end.

(** The state in which [main] starts waiting: every worker and the
    reporter have been spawned and none has run yet. *)
Definition spawned (w : World) (ops : list (option Op)) (cl : bool) : State :=
  mkState w Running ops cl 0 (replicate (Z.to_nat (workers (globals w))) W_Start) R_Start 0.

(** [func main()]: the flags as parsed, what the dispatcher will
    deliver, and the scheduler's choices. *)
Definition main (fl : Flags) (ops : list (option Op)) (cl : bool) (sched : list Goroutine)
  : State :=
  match main_startup env (mkWorld fl []) with
  | Ok _ w => run sched (spawned w ops cl)
  | Panicked e w => mkState w (Crashed e) ops cl 0 [] R_Start 0
  end.

End Scheduler.

(** ** Spec-side vocabulary *)

(** The spec's classification of a failed attempt: malformed query,
    server-side last-error report and not-found are permanent. *)
Definition recognized_permanent (e : error) : bool :=
  match e with
  | QueryError _ _ | LastError _ _ | ErrNotFound => true
  | ErrorString _ => false
  end.

(** What the logger wrote, in order. *)
Fixpoint logged (t : list Event) : list LogEntry :=
  match t with
  | [] => []
  | EvLog l :: t' => l :: logged t'
  | _ :: t' => logged t'
  end.

Fixpoint count (p : Event -> bool) (t : list Event) : nat :=
  match t with
  | [] => O
  | e :: t' => ((if p e then 1 else 0) + count p t')%nat
  end.

Definition is_refresh (e : Event) : bool :=
  match e with EvRefresh _ => true | _ => false end.
Definition is_report (e : Event) : bool :=
  match e with EvReport => true | _ => false end.

(** ** Concrete collaborators, for running the model *)

Definition stdout_logger : Logger := mkLogger "" "".
Definition socket_error : error := ErrorString "EOF".
Definition an_op : Op := mkOp 1396456709419 "insert" "{}".

(** Every collaborator succeeds. *)
Definition env_healthy : Env :=
  mkEnv (fun _ _ => (Some stdout_logger, None)) (fun _ => None) (fun _ _ => None)
        (fun _ _ => None) (fun _ _ => None) (fun _ _ _ => None).

(** The executor fails with a socket error until the session has been
    refreshed. *)
Definition env_flaky : Env :=
  mkEnv (fun _ _ => (Some stdout_logger, None)) (fun _ => None) (fun _ _ => None)
        (fun _ _ => None) (fun _ _ => None)
        (fun h _ _ => if existsb is_refresh h then None else Some socket_error).

(** The executor always answers not-found. *)
Definition env_not_found : Env :=
  mkEnv (fun _ _ => (Some stdout_logger, None)) (fun _ => None) (fun _ _ => None)
        (fun _ _ => None) (fun _ _ => None) (fun _ _ _ => Some ErrNotFound).

(** The logger cannot be created. *)
Definition env_no_logger : Env :=
  mkEnv (fun _ _ => (None, Some (ErrorString "open /var/log/replay: permission denied")))
        (fun _ => None) (fun _ _ => None) (fun _ _ => None) (fun _ _ => None)
        (fun _ _ _ => None).

Definition stress_flags : Flags :=
  mkFlags 0 0 "ops.json" DEFAULT_MGO_SOCKET_TIMEOUT 0 "stress" "localhost" false 2 "" "" None.

Definition real_flags : Flags :=
  mkFlags 1000 5 "ops.json" DEFAULT_MGO_SOCKET_TIMEOUT 1396456709419 "real" "localhost" true 2 "" ""
          None.

Definition idle : World := mkWorld stress_flags [].


(** ** The retry policy *)

Section Retry.

Variable env : Env.

(** For any block: a nil or recognised result is returned as it is, in
    the world the block left. *)
Lemma RetryOnSocketFailure_final (block : M (option error)) (session : nat)
      (w w1 : World) (r1 : option error) :
  block w = Ok r1 w1 ->
  match r1 with Some e => recognized_permanent e = true | None => True end ->
  RetryOnSocketFailure block session w = Ok r1 w1.
Proof.
  intros Hb Hr. unfold RetryOnSocketFailure, bind. rewrite Hb.
  destruct r1 as [[ | | | ]|]; simpl in *; try reflexivity. discriminate.
Qed.

(** For any block: after any other error the session is refreshed, the
    retry is logged and the block's second result is the result. *)
Lemma RetryOnSocketFailure_again (block : M (option error)) (session : nat)
      (w w1 : World) (e : error) :
  block w = Ok (Some e) w1 ->
  recognized_permanent e = false ->
  RetryOnSocketFailure block session w =
  block (log_event (EvLog (Error_retrying e)) (log_event (EvRefresh session) w1)).
Proof.
  intros Hb Hr. unfold RetryOnSocketFailure, bind. rewrite Hb.
  destruct e; simpl in *; try discriminate. reflexivity.
Qed.

Lemma exec_Execute_eq (id : nat) (op : Op) (w : World) :
  exec_Execute env id op w =
  Ok (Execute env (trace w) id op)
     (log_event (EvExecute id op (Execute env (trace w) id op)) w).
Proof. reflexivity. Qed.

(** The same two facts for the block a worker builds,
    [exec.Execute(op)], with the events they add to the trace. *)
Lemma RetryOnSocketFailure_exec_final (id : nat) (op : Op) (w : World) :
  let r1 := Execute env (trace w) id op in
  match r1 with Some e => recognized_permanent e = true | None => True end ->
  RetryOnSocketFailure (exec_Execute env id op) id w =
  Ok r1 (mkWorld (globals w) (trace w ++ [EvExecute id op r1])).
Proof.
  intros r1 Hr. apply RetryOnSocketFailure_final; [apply exec_Execute_eq | exact Hr].
Qed.

Lemma RetryOnSocketFailure_exec_again (id : nat) (op : Op) (w : World) (e : error) :
  Execute env (trace w) id op = Some e ->
  recognized_permanent e = false ->
  let before_retry :=
    trace w ++ [EvExecute id op (Some e); EvRefresh id; EvLog (Error_retrying e)] in
  let r2 := Execute env before_retry id op in
  RetryOnSocketFailure (exec_Execute env id op) id w =
  Ok r2 (mkWorld (globals w) (before_retry ++ [EvExecute id op r2])).
Proof.
  intros He Hr before_retry r2.
  assert (Hb : exec_Execute env id op w = Ok (Some e) (log_event (EvExecute id op (Some e)) w)).
  { rewrite exec_Execute_eq, He. reflexivity. }
  rewrite (RetryOnSocketFailure_again _ id w _ e Hb Hr).
  rewrite exec_Execute_eq. unfold log_event; simpl.
  subst r2 before_retry. rewrite <- !app_assoc. reflexivity.
Qed.

(** C1. Retry policy of [RetryOnSocketFailure] on the block a worker
    builds for an op ([exec.Execute(op)]).  If the first attempt returns
    nil or a recognised permanent error (query error, last error,
    not-found), the block was invoked exactly once, the session was not
    refreshed, and that result is returned.  After any other error the
    session is refreshed exactly once, the retry is logged, the block is
    invoked exactly once more, and the second result is returned,
    whatever it is.  The events added to the trace are listed in full,
    so the numbers of invocations and refreshes can be read off. *)
Theorem RetryOnSocketFailure_policy (id : nat) (op : Op) (w : World) :
  let block := exec_Execute env id op in
  let r1 := Execute env (trace w) id op in
  (match r1 with Some e => recognized_permanent e = true | None => True end ->
   RetryOnSocketFailure block id w =
   Ok r1 (mkWorld (globals w) (trace w ++ [EvExecute id op r1])))
  /\
  (forall e, r1 = Some e -> recognized_permanent e = false ->
   let before_retry :=
     trace w ++ [EvExecute id op (Some e); EvRefresh id; EvLog (Error_retrying e)] in
   let r2 := Execute env before_retry id op in
   RetryOnSocketFailure block id w =
   Ok r2 (mkWorld (globals w) (before_retry ++ [EvExecute id op r2]))).
Proof.
  intros block r1. split.
  - apply RetryOnSocketFailure_exec_final.
  - intros e. apply RetryOnSocketFailure_exec_again.
Qed.

End Retry.

(** A not-found answer is returned after one invocation; a socket error
    is followed by one refresh and one more invocation. *)
Lemma RetryOnSocketFailure_policy_witness :
  RetryOnSocketFailure (exec_Execute env_not_found 0 an_op) 0 idle =
  Ok (Some ErrNotFound) (mkWorld stress_flags [EvExecute 0 an_op (Some ErrNotFound)])
  /\
  RetryOnSocketFailure (exec_Execute env_flaky 0 an_op) 0 idle =
  Ok None (mkWorld stress_flags
             [EvExecute 0 an_op (Some socket_error); EvRefresh 0;
              EvLog (Error_retrying socket_error); EvExecute 0 an_op None]).
Proof.
  split.
  - apply (proj1 (RetryOnSocketFailure_policy env_not_found 0 an_op idle)).
    reflexivity.
  - apply (proj2 (RetryOnSocketFailure_policy env_flaky 0 an_op idle) socket_error);
      reflexivity.
Defined.

(** ** What a worker logs for one op *)

Lemma logged_app (t1 t2 : list Event) : logged (t1 ++ t2) = logged t1 ++ logged t2.
Proof.
  induction t1 as [|e t1 IH]; simpl; [reflexivity|].
  destruct e; simpl; rewrite ?IH; reflexivity.
Qed.

(** [RetryOnSocketFailure] on a worker's block always returns, leaves
    the globals alone and only adds to the trace. *)
Lemma RetryOnSocketFailure_returns (env : Env) (id : nat) (op : Op) (w : World) :
  exists (r : option error) (evs : list Event),
    RetryOnSocketFailure (exec_Execute env id op) id w =
    Ok r (mkWorld (globals w) (trace w ++ evs)) /\
    logged evs =
    match Execute env (trace w) id op with
    | Some e => if recognized_permanent e then [] else [Error_retrying e]
    | None => []
    end.
Proof.
  pose proof (RetryOnSocketFailure_exec_final env id op w) as Hone.
  pose proof (RetryOnSocketFailure_exec_again env id op w) as Htwo.
  cbv zeta in Hone, Htwo.
  destruct (Execute env (trace w) id op) as [e|] eqn:E1.
  - destruct (recognized_permanent e) eqn:Ep.
    + eexists _, _. split; [apply Hone; reflexivity | reflexivity].
    + specialize (Htwo e eq_refl Ep).
      eexists _, _. split; [rewrite Htwo; rewrite <- app_assoc; reflexivity|].
      reflexivity.
  - eexists _, _. split; [apply Hone; exact I | reflexivity].
Qed.

(** The claim of the spec about non-verbose runs, for one op: nothing is
    logged while the op is handled. *)
Definition quiet_when_not_verbose (env : Env) (id : nat) (op : Op) (w : World) : Prop :=
  verbose (globals w) = false ->
  forall w', fetch_op env id op w = Ok tt w' -> logged (trace w') = logged (trace w).

(** C7, as stated, fails: with [verbose] off, an op whose first attempt
    hits a socket error leaves a retry notice in the log. *)
Lemma retry_notice_when_not_verbose : ~ quiet_when_not_verbose env_flaky 0 an_op idle.
Proof.
  intros H. specialize (H eq_refl _ eq_refl). vm_compute in H. discriminate H.
Qed.

(** C7, amended. Handling one op always returns and logs exactly this:
    a retry notice carrying the first attempt's error whenever that
    error is not a recognised permanent one, whether [verbose] is set
    or not; then, only when [verbose] is set, the error the op ended
    with (the retry's error when there was a retry), if any. *)
Theorem fetch_op_logging (env : Env) (id : nat) (op : Op) (w : World) :
  exists (r : option error) (w1 : World) (evs : list Event),
    RetryOnSocketFailure (exec_Execute env id op) id w = Ok r w1 /\
    fetch_op env id op w = Ok tt (mkWorld (globals w) (trace w ++ evs)) /\
    logged evs =
    match Execute env (trace w) id op with
    | Some e => if recognized_permanent e then [] else [Error_retrying e]
    | None => []
    end ++
    match r with
    | Some e => if verbose (globals w) then [Error_op e] else []
    | None => []
    end.
Proof.
  destruct (RetryOnSocketFailure_returns env id op w) as (r & evs & HR & Hl).
  exists r, (mkWorld (globals w) (trace w ++ evs)).
  unfold fetch_op, bind. rewrite HR. cbn [get globals].
  destruct (verbose (globals w)) eqn:V, r as [e|].
  - exists (evs ++ [EvLog (Error_op e)]). split; [reflexivity|]. split.
    + unfold logger_Error, emit; simpl. rewrite app_assoc. reflexivity.
    + rewrite logged_app, Hl. reflexivity.
  - exists evs. split; [reflexivity|]. split; [reflexivity|].
    rewrite Hl, app_nil_r. reflexivity.
  - exists evs. split; [reflexivity|]. split; [reflexivity|].
    rewrite Hl, app_nil_r. reflexivity.
  - exists evs. split; [reflexivity|]. split; [reflexivity|].
    rewrite Hl, app_nil_r. reflexivity.
Qed.

(** ** Start-up *)

Definition result_world {A} (r : Result A) : World :=
  match r with Ok _ w => w | Panicked _ w => w end.

(** The globals as [parseFlags] leaves them when it accepts them. *)
Definition parsed (env : Env) (g : Flags) : Flags :=
  set_logger (fst (NewLogger env (stdout g) (stderr g)))
             (if maxOps g =? 0 then set_maxOps 4294967295 g else g).

Lemma parseFlags_accepts (env : Env) (w : World) :
  style (globals w) = "stress" \/ style (globals w) = "real" ->
  0 < workers (globals w) ->
  parseFlags env w =
  Ok None (mkWorld (parsed env (globals w))
                   (trace w ++ [EvNewLogger (stdout (globals w)) (stderr (globals w))])).
Proof.
  intros Hs Hw. unfold parseFlags, bind, get, parsed.
  assert (E : negb (style (globals w) =? "stress")%string &&
              negb (style (globals w) =? "real")%string = false).
  { destruct Hs as [-> | ->]; reflexivity. }
  rewrite E. destruct (Z.leb_spec (workers (globals w)) 0) as [Hle|_]; [lia|].
  destruct (NewLogger env (stdout (globals w)) (stderr (globals w))) as [l err].
  destruct (maxOps (globals w) =? 0), err; reflexivity.
Qed.

Lemma parseFlags_rejects (env : Env) (w : World) :
  (style (globals w) <> "stress" /\ style (globals w) <> "real") \/ workers (globals w) <= 0 ->
  exists e, parseFlags env w = Ok (Some e) w.
Proof.
  intros H. unfold parseFlags, bind, get.
  destruct (negb (style (globals w) =? "stress")%string &&
            negb (style (globals w) =? "real")%string) eqn:E.
  - eexists. reflexivity.
  - destruct (Z.leb_spec (workers (globals w)) 0) as [Hle|Hgt].
    + eexists. reflexivity.
    + exfalso. destruct H as [[H1 H2]|H]; [|lia].
      apply andb_false_iff in E. rewrite !negb_false_iff, !String.eqb_eq in E.
      tauto.
Qed.

Lemma go_fetch_from_eq (i n : nat) (w : World) :
  go_fetch_from i n w = Ok tt (mkWorld (globals w) (trace w ++ map EvGoFetch (seq i n))).
Proof.
  revert i w. induction n as [|n IH]; intros i w; simpl.
  - rewrite app_nil_r. destruct w; reflexivity.
  - unfold bind, emit. rewrite IH. simpl. rewrite <- app_assoc. reflexivity.
Qed.

(** The reader and the dispatcher each style asks for. *)
Definition reader_for (g : Flags) : OpsReader :=
  if (style g =? "stress")%string then FileByLineOpsReader (opsFilename g)
  else CyclicOpsReader (FileByLineOpsReader (opsFilename g)).

Definition dispatcher_for (g : Flags) : Dispatcher :=
  if (style g =? "stress")%string
  then BestEffortOpsDispatcher (reader_for g) (maxOps g)
  else ByTimeOpsDispatcher (reader_for g) (maxOps g).

(** The calls that position the reader, in the order they were made. *)
Fixpoint positioning (t : list Event) : list Event :=
  match t with
  | [] => []
  | EvSetStartTime r ts :: t' => EvSetStartTime r ts :: positioning t'
  | EvSkipOps r n :: t' => EvSkipOps r n :: positioning t'
  | _ :: t' => positioning t'
  end.

Lemma positioning_app (t1 t2 : list Event) :
  positioning (t1 ++ t2) = positioning t1 ++ positioning t2.
Proof.
  induction t1 as [|e t1 IH]; simpl; [reflexivity|].
  destruct e; simpl; rewrite ?IH; reflexivity.
Qed.

Lemma positioning_go_fetch (i n : nat) : positioning (map EvGoFetch (seq i n)) = [].
Proof. revert i. induction n as [|n IH]; intros i; simpl; auto. Qed.

Lemma style_parsed (env : Env) (g : Flags) : style (parsed env g) = style g.
Proof. unfold parsed. destruct (maxOps g =? 0); reflexivity. Qed.

Lemma workers_parsed (env : Env) (g : Flags) : workers (parsed env g) = workers g.
Proof. unfold parsed. destruct (maxOps g =? 0); reflexivity. Qed.

Lemma opsFilename_parsed (env : Env) (g : Flags) : opsFilename (parsed env g) = opsFilename g.
Proof. unfold parsed. destruct (maxOps g =? 0); reflexivity. Qed.

Lemma startTime_parsed (env : Env) (g : Flags) : startTime (parsed env g) = startTime g.
Proof. unfold parsed. destruct (maxOps g =? 0); reflexivity. Qed.

Lemma numSkipOps_parsed (env : Env) (g : Flags) : numSkipOps (parsed env g) = numSkipOps g.
Proof. unfold parsed. destruct (maxOps g =? 0); reflexivity. Qed.

(** [main_startup] once the flags are accepted: what is left is the
    branch on [style]. *)
Lemma main_startup_accepted (env : Env) (fl : Flags) :
  style fl = "stress" \/ style fl = "real" ->
  0 < workers fl ->
  main_startup env (mkWorld fl []) =
  (let g := parsed env fl in
   opsChan <-
     (if (style g =? "stress")%string then
        r <- NewFileByLineOpsReader env (opsFilename g) ;;
        panicOnError (fst r) ;;;
        let reader := snd r in
        when (startTime g >? 0)
          (err <- reader_SetStartTime env reader (startTime g) ;; panicOnError err) ;;;
        when (numSkipOps g >? 0)
          (err <- reader_SkipOps env reader (numSkipOps g) ;; panicOnError err) ;;;
        NewBestEffortOpsDispatcher reader (maxOps g)
      else
        reader <- NewCyclicOpsReader
                    (r <- NewFileByLineOpsReader env (opsFilename g) ;;
                     panicOnError (fst r) ;;;
                     ret (snd r)) ;;
        when (startTime g >? 0)
          (err <- reader_SetStartTime env reader (startTime g) ;; panicOnError err) ;;;
        when (numSkipOps g >? 0)
          (err <- reader_SkipOps env reader (numSkipOps g) ;; panicOnError err) ;;;
        NewByTimeOpsDispatcher reader (maxOps g)) ;;
   go_fetch_from 0 (Z.to_nat (workers g)) ;;;
   emit EvGoReporter ;;;
   ret opsChan)
    (mkWorld (parsed env fl) [EvGOMAXPROCS 100; EvNewLogger (stdout fl) (stderr fl)]).
Proof.
  intros Hs Hw. unfold main_startup at 1.
  unfold bind at 1. cbn [emit globals trace app].
  unfold bind at 1. rewrite parseFlags_accepts by assumption.
  cbn [globals trace app]. reflexivity.
Qed.

Ltac startup_steps :=
  repeat (unfold bind, NewFileByLineOpsReader, NewCyclicOpsReader, reader_SetStartTime,
                 reader_SkipOps, NewBestEffortOpsDispatcher, NewByTimeOpsDispatcher,
                 when, panicOnError, panic, emit, ret;
          cbn [fst snd globals trace result_world]).


(** The trace of a start-up that got through, for globals [g] as
    [parseFlags] left them. *)
Definition startup_trace (g : Flags) : list Event :=
  [EvGOMAXPROCS 100; EvNewLogger (stdout g) (stderr g)] ++
  (if (style g =? "stress")%string then [EvOpenFile (opsFilename g)]
   else [EvNewCyclicOpsReader; EvOpenFile (opsFilename g)]) ++
  (if startTime g >? 0 then [EvSetStartTime (reader_for g) (startTime g)] else []) ++
  (if numSkipOps g >? 0 then [EvSkipOps (reader_for g) (numSkipOps g)] else []) ++
  [EvNewDispatcher (dispatcher_for g)] ++
  map EvGoFetch (seq 0 (Z.to_nat (workers g))) ++ [EvGoReporter].

Lemma stdout_parsed (env : Env) (g : Flags) : stdout (parsed env g) = stdout g.
Proof. unfold parsed. destruct (maxOps g =? 0); reflexivity. Qed.

Lemma stderr_parsed (env : Env) (g : Flags) : stderr (parsed env g) = stderr g.
Proof. unfold parsed. destruct (maxOps g =? 0); reflexivity. Qed.

(** What [main_startup] returns for flags [parseFlags] accepts: it
    panics with the first error a collaborator reports, and otherwise
    returns the dispatcher of the style with the trace above. *)
Definition startup_outcome (env : Env) (fl : Flags) : Result Dispatcher :=
  let g := parsed env fl in
  let r := reader_for g in
  let t0 := [EvGOMAXPROCS 100; EvNewLogger (stdout g) (stderr g)] ++
            (if (style g =? "stress")%string then [EvOpenFile (opsFilename g)]
             else [EvNewCyclicOpsReader; EvOpenFile (opsFilename g)]) in
  match OpenFile env (opsFilename g) with
  | Some e => Panicked e (mkWorld g t0)
  | None =>
    let t1 := t0 ++ (if startTime g >? 0 then [EvSetStartTime r (startTime g)] else []) in
    match (if startTime g >? 0 then SetStartTime env r (startTime g) else None) with
    | Some e => Panicked e (mkWorld g t1)
    | None =>
      let t2 := t1 ++ (if numSkipOps g >? 0 then [EvSkipOps r (numSkipOps g)] else []) in
      match (if numSkipOps g >? 0 then SkipOps env r (numSkipOps g) else None) with
      | Some e => Panicked e (mkWorld g t2)
      | None => Ok (dispatcher_for g) (mkWorld g (startup_trace g))
      end
    end
  end.

Lemma main_startup_outcome (env : Env) (fl : Flags) :
  style fl = "stress" \/ style fl = "real" ->
  0 < workers fl ->
  main_startup env (mkWorld fl []) = startup_outcome env fl.
Proof.
  intros Hs Hw. rewrite main_startup_accepted by assumption.
  unfold startup_outcome, startup_trace, dispatcher_for, reader_for. cbv zeta.
  rewrite !style_parsed, !stdout_parsed, !stderr_parsed.
  generalize (parsed env fl). intros g.
  destruct Hs as [Hs | Hs]; rewrite Hs; cbn [String.eqb Ascii.eqb Bool.eqb];
    startup_steps;
    destruct (OpenFile env (opsFilename g)); startup_steps; try reflexivity;
    destruct (startTime g >? 0); startup_steps;
    try (match goal with |- context [SetStartTime env ?r ?t] =>
           destruct (SetStartTime env r t) end; startup_steps; try reflexivity);
    destruct (numSkipOps g >? 0); startup_steps;
    try (match goal with |- context [SkipOps env ?r ?t] =>
           destruct (SkipOps env r t) end; startup_steps; try reflexivity);
    rewrite go_fetch_from_eq; cbn [globals trace app];
    rewrite <- ?app_assoc; reflexivity.
Qed.

Lemma main_startup_rejected (env : Env) (fl : Flags) :
  (style fl <> "stress" /\ style fl <> "real") \/ workers fl <= 0 ->
  exists e,
    parseFlags env (mkWorld fl [EvGOMAXPROCS 100]) = Ok (Some e) (mkWorld fl [EvGOMAXPROCS 100]) /\
    main_startup env (mkWorld fl []) = Panicked e (mkWorld fl [EvGOMAXPROCS 100]).
Proof.
  intros H.
  destruct (parseFlags_rejects env (mkWorld fl [EvGOMAXPROCS 100]) H) as [e He].
  exists e. split; [exact He|].
  unfold main_startup. unfold bind at 1. cbn [emit globals trace app].
  unfold bind at 1. rewrite He. reflexivity.
Qed.

Lemma flags_accepted_or_not (fl : Flags) :
  ((style fl = "stress" \/ style fl = "real") /\ 0 < workers fl) \/
  ((style fl <> "stress" /\ style fl <> "real") \/ workers fl <= 0).
Proof.
  destruct (String.eqb_spec (style fl) "stress"), (String.eqb_spec (style fl) "real"),
    (Z.lt_ge_cases 0 (workers fl)); try tauto; right; right; lia.
Qed.

(** C10. With [startTime > 0] and [numSkipOps > 0] (and flags that
    [parseFlags] accepts), the calls that position the reader are, in
    this order, [SetStartTime(startTime)] and then [SkipOps(numSkipOps)],
    on the file reader in the stress branch and on the cyclic reader in
    the real branch alike.  [SkipOps] is never called first; it is not
    called at all when the file cannot be opened or [SetStartTime]
    fails, because [main] panics there. *)
Theorem SetStartTime_then_SkipOps (env : Env) (fl : Flags) :
  style fl = "stress" \/ style fl = "real" ->
  0 < workers fl ->
  0 < startTime fl ->
  0 < numSkipOps fl ->
  let r := reader_for fl in
  positioning (trace (result_world (main_startup env (mkWorld fl [])))) =
  match OpenFile env (opsFilename fl) with
  | Some _ => []
  | None =>
    match SetStartTime env r (startTime fl) with
    | Some _ => [EvSetStartTime r (startTime fl)]
    | None => [EvSetStartTime r (startTime fl); EvSkipOps r (numSkipOps fl)]
    end
  end.
Proof.
  intros Hs Hw Ht Hn r. rewrite main_startup_accepted by assumption. cbv zeta.
  rewrite style_parsed, opsFilename_parsed, startTime_parsed, numSkipOps_parsed,
    workers_parsed.
  assert (Et : (startTime fl >? 0) = true) by (apply Z.gtb_lt; lia).
  assert (En : (numSkipOps fl >? 0) = true) by (apply Z.gtb_lt; lia).
  rewrite Et, En. subst r. unfold reader_for.
  destruct Hs as [Hs | Hs]; rewrite Hs; cbn [String.eqb Ascii.eqb Bool.eqb];
    startup_steps;
    destruct (OpenFile env (opsFilename fl)); startup_steps; try reflexivity;
    match goal with |- context [SetStartTime env ?r ?t] =>
      destruct (SetStartTime env r t) end; startup_steps; try reflexivity;
    match goal with |- context [SkipOps env ?r ?t] =>
      destruct (SkipOps env r t) end; startup_steps; try reflexivity;
    rewrite go_fetch_from_eq; cbn [globals trace result_world];
    rewrite !positioning_app, positioning_go_fetch; reflexivity.
Qed.

(** ** The readers, as the spec describes them *)









(** ** Claims about start-up *)

(** C5. If [style] is neither "stress" nor "real", or [workers] is not
    positive, [parseFlags] returns an error and [main] panics with it at
    once: the final state is the crash, whatever the dispatcher would
    have delivered and whatever the scheduler would have chosen; the
    trace holds the [GOMAXPROCS] call only (no reader was opened, no
    dispatcher built, no goroutine started, no op executed), no worker
    exists and the counter is 0. *)
Theorem invalid_flags_are_fatal (env : Env) (fl : Flags) (ops : list (option Op)) (cl : bool)
        (sched : list Goroutine) :
  (style fl <> "stress" /\ style fl <> "real") \/ workers fl <= 0 ->
  exists e,
    parseFlags env (mkWorld fl [EvGOMAXPROCS 100]) =
    Ok (Some e) (mkWorld fl [EvGOMAXPROCS 100]) /\
    main env fl ops cl sched =
    mkState (mkWorld fl [EvGOMAXPROCS 100]) (Crashed e) ops cl 0 [] R_Start 0.
Proof.
  intros H. destruct (main_startup_rejected env fl H) as (e & Hp & Hm).
  exists e. split; [exact Hp|]. unfold main. rewrite Hm. reflexivity.
Qed.

Definition bad_style_flags : Flags :=
  mkFlags 0 0 "ops.json" DEFAULT_MGO_SOCKET_TIMEOUT 0 "fast" "localhost" false 10 "" "" None.

Definition no_workers_flags : Flags :=
  mkFlags 0 0 "ops.json" DEFAULT_MGO_SOCKET_TIMEOUT 0 "stress" "localhost" false 0 "" "" None.

Lemma invalid_flags_are_fatal_witness :
  (exists e,
     parseFlags env_healthy (mkWorld bad_style_flags [EvGOMAXPROCS 100]) =
     Ok (Some e) (mkWorld bad_style_flags [EvGOMAXPROCS 100]) /\
     main env_healthy bad_style_flags [Some an_op; None] false [GoFetch 0; GoMain] =
     mkState (mkWorld bad_style_flags [EvGOMAXPROCS 100]) (Crashed e) [Some an_op; None] false
             0 [] R_Start 0) /\
  (exists e,
     parseFlags env_healthy (mkWorld no_workers_flags [EvGOMAXPROCS 100]) =
     Ok (Some e) (mkWorld no_workers_flags [EvGOMAXPROCS 100]) /\
     main env_healthy no_workers_flags [] true [GoMain] =
     mkState (mkWorld no_workers_flags [EvGOMAXPROCS 100]) (Crashed e) [] true 0 [] R_Start 0).
Proof.
  split.
  - apply (invalid_flags_are_fatal env_healthy bad_style_flags).
    left. split; discriminate.
  - apply (invalid_flags_are_fatal env_healthy no_workers_flags).
    right. simpl. lia.
Defined.

(** C9. When [NewLogger] returns an error, [parseFlags] still returns
    nil (for flags it accepts: [NewLogger] is only reached then); the
    global [logger] holds whatever [NewLogger] returned with the error,
    nil if it returned nil; [panicOnError(err)] after it does not
    panic, and [main] goes on to open the ops file. *)
Theorem NewLogger_error_is_not_fatal (env : Env) (fl : Flags) (l : option Logger) (e : error) :
  style fl = "stress" \/ style fl = "real" ->
  0 < workers fl ->
  NewLogger env (stdout fl) (stderr fl) = (l, Some e) ->
  exists w,
    parseFlags env (mkWorld fl [EvGOMAXPROCS 100]) = Ok None w /\
    logger (globals w) = l /\
    (err <- parseFlags env ;; panicOnError err) (mkWorld fl [EvGOMAXPROCS 100]) = Ok tt w /\
    In (EvOpenFile (opsFilename fl))
       (trace (result_world (main_startup env (mkWorld fl [])))).
Proof.
  intros Hs Hw Hl. eexists. split; [apply parseFlags_accepts; assumption|].
  cbn [globals]. split; [|split; [unfold bind; rewrite parseFlags_accepts by assumption;
                                  reflexivity|]].
  - unfold parsed. rewrite Hl. destruct (maxOps fl =? 0); reflexivity.
  - rewrite main_startup_outcome by assumption. unfold startup_outcome. cbv zeta.
    rewrite style_parsed, opsFilename_parsed.
    assert (Hin : In (EvOpenFile (opsFilename fl))
                     ([EvGOMAXPROCS 100; EvNewLogger (stdout (parsed env fl)) (stderr (parsed env fl))] ++
                      (if (style fl =? "stress")%string then [EvOpenFile (opsFilename fl)]
                       else [EvNewCyclicOpsReader; EvOpenFile (opsFilename fl)]))).
    { apply in_or_app. right. destruct (style fl =? "stress")%string; simpl; auto. }
    destruct (OpenFile env (opsFilename fl)); [exact Hin|].
    match goal with |- context [if ?b then SetStartTime _ _ _ else None] =>
      destruct (if b then SetStartTime env _ _ else None) end;
      [cbn [result_world trace]; apply in_or_app; left; exact Hin|].
    match goal with |- context [if ?b then SkipOps _ _ _ else None] =>
      destruct (if b then SkipOps env _ _ else None) end;
      [cbn [result_world trace]; apply in_or_app; left; apply in_or_app; left; exact Hin|].
    cbn [result_world trace]. unfold startup_trace.
    rewrite style_parsed, opsFilename_parsed.
    rewrite app_assoc. apply in_or_app. left. exact Hin.
Qed.

Lemma NewLogger_error_is_not_fatal_witness :
  exists w,
    parseFlags env_no_logger (mkWorld stress_flags [EvGOMAXPROCS 100]) = Ok None w /\
    logger (globals w) = None /\
    (err <- parseFlags env_no_logger ;; panicOnError err)
      (mkWorld stress_flags [EvGOMAXPROCS 100]) = Ok tt w /\
    In (EvOpenFile (opsFilename stress_flags))
       (trace (result_world (main_startup env_no_logger (mkWorld stress_flags [])))).
Proof.
  apply (NewLogger_error_is_not_fatal env_no_logger stress_flags None
           (ErrorString "open /var/log/replay: permission denied")).
  - left. reflexivity.
  - simpl. lia.
  - reflexivity.
Defined.

Lemma main_startup_Ok (env : Env) (fl : Flags) (d : Dispatcher) (w : World) :
  main_startup env (mkWorld fl []) = Ok d w ->
  (style fl = "stress" \/ style fl = "real") /\ 0 < workers fl /\
  d = dispatcher_for (parsed env fl) /\
  w = mkWorld (parsed env fl) (startup_trace (parsed env fl)).
Proof.
  intros H. destruct (flags_accepted_or_not fl) as [[Hs Hw] | Hbad].
  - rewrite main_startup_outcome in H by assumption.
    unfold startup_outcome in H. cbv zeta in H.
    destruct (OpenFile env _); [discriminate|].
    destruct (if startTime _ >? 0 then _ else None); [discriminate|].
    destruct (if numSkipOps _ >? 0 then _ else None); [discriminate|].
    inversion H. auto.
  - destruct (main_startup_rejected env fl Hbad) as (e & _ & Hm).
    rewrite Hm in H. discriminate.
Qed.



Lemma count_app (p : Event -> bool) (t1 t2 : list Event) :
  count p (t1 ++ t2) = (count p t1 + count p t2)%nat.
Proof. induction t1 as [|e t1 IH]; simpl; [reflexivity|]. rewrite IH. lia. Qed.





(** C4, on the code. With [maxOps = 0] the flags are accepted with
    [maxOps] replaced by 4294967295, and that number is the op limit
    [main] hands to the dispatcher and the bound of the reporter's loop
    (line 220): the run has a fixed op limit, in both styles. *)
Theorem maxOps_zero_is_a_fixed_limit :
  maxOps stress_flags = 0 /\
  maxOps (parsed env_healthy stress_flags) = 4294967295 /\
  main_startup env_healthy (mkWorld stress_flags []) =
  Ok (BestEffortOpsDispatcher (FileByLineOpsReader "ops.json") 4294967295)
     (mkWorld (parsed env_healthy stress_flags) (startup_trace (parsed env_healthy stress_flags))) /\
  (exists w,
     main_startup env_healthy (mkWorld (set_maxOps 0 real_flags) []) =
     Ok (ByTimeOpsDispatcher (CyclicOpsReader (FileByLineOpsReader "ops.json")) 4294967295) w) /\
  maxOps (globals (world (main env_healthy stress_flags [] false []))) = 4294967295.
Proof. repeat split. eexists. reflexivity. Qed.

Definition seek_flags : Flags :=
  mkFlags 10 5 "ops.json" DEFAULT_MGO_SOCKET_TIMEOUT 1396456709419 "stress" "localhost" false 2
          "" "" None.

Lemma SetStartTime_then_SkipOps_witness :
  positioning (trace (result_world (main_startup env_healthy (mkWorld seek_flags [])))) =
  [EvSetStartTime (FileByLineOpsReader "ops.json") 1396456709419;
   EvSkipOps (FileByLineOpsReader "ops.json") 5] /\
  positioning (trace (result_world (main_startup env_healthy (mkWorld real_flags [])))) =
  [EvSetStartTime (CyclicOpsReader (FileByLineOpsReader "ops.json")) 1396456709419;
   EvSkipOps (CyclicOpsReader (FileByLineOpsReader "ops.json")) 5].
Proof.
  split.
  - apply (SetStartTime_then_SkipOps env_healthy seek_flags);
      [left; reflexivity | reflexivity | reflexivity | reflexivity].
  - apply (SetStartTime_then_SkipOps env_healthy real_flags);
      [right; reflexivity | reflexivity | reflexivity | reflexivity].
Defined.

(** ** Sequential code only adds to the trace *)

(** The events goroutines synchronise on, with the worker they belong
    to: a pull of an op, a pull of the sentinel, an increment of the
    counter, a completion signal taken by [main]. *)
Inductive Sync : Type := PullOp | PullNil | Add | Exit.

Definition sync_of (e : Event) : option (Sync * nat) :=
  match e with
  | EvPull id (Some _) => Some (PullOp, id)
  | EvPull id None => Some (PullNil, id)
  | EvAdd id => Some (Add, id)
  | EvExit id => Some (Exit, id)
  | _ => None
  end.

Definition Sync_eqb (a b : Sync) : bool :=
  match a, b with
  | PullOp, PullOp | PullNil, PullNil | Add, Add | Exit, Exit => true
  | _, _ => false
  end.

(** Events of kind [k] ... *)
Definition is_sync (k : Sync) (e : Event) : bool :=
  match sync_of e with
  | Some (k', _) => Sync_eqb k k'
  | None => false
  end.

(** ... and those of worker [id] among them. *)
Definition is_sync_of (k : Sync) (id : nat) (e : Event) : bool :=
  match sync_of e with
  | Some (k', id') => Sync_eqb k k' && Nat.eqb id id'
  | None => false
  end.

(** The ops pulled from the queue so far, in order. *)
Fixpoint pulled (t : list Event) : list Op :=
  match t with
  | [] => []
  | EvPull _ (Some op) :: t' => op :: pulled t'
  | _ :: t' => pulled t'
  end.

Definition quiet (evs : list Event) : Prop := Forall (fun e => sync_of e = None) evs.

(** [m] only appends events, none of them a synchronisation event. *)
Definition appends_quietly {A} (m : M A) : Prop :=
  forall w, exists evs, quiet evs /\ trace (result_world (m w)) = trace w ++ evs.

(** [m] leaves the globals alone. *)
Definition keeps_globals {A} (m : M A) : Prop :=
  forall w, globals (result_world (m w)) = globals w.

Lemma quiet_app (a b : list Event) : quiet a -> quiet b -> quiet (a ++ b).
Proof. unfold quiet. intros. apply Forall_app; auto. Qed.

Lemma count_quiet_any (k : Sync) (evs : list Event) : quiet evs -> count (is_sync k) evs = O.
Proof.
  induction 1 as [|e evs He _ IH]; simpl; [reflexivity|].
  unfold is_sync at 1. rewrite He, IH. reflexivity.
Qed.

Lemma count_quiet_by (k : Sync) (id : nat) (evs : list Event) :
  quiet evs -> count (is_sync_of k id) evs = O.
Proof.
  induction 1 as [|e evs He _ IH]; simpl; [reflexivity|].
  unfold is_sync_of at 1. rewrite He, IH. reflexivity.
Qed.

Lemma pulled_app (t1 t2 : list Event) : pulled (t1 ++ t2) = pulled t1 ++ pulled t2.
Proof.
  induction t1 as [|e t1 IH]; simpl; [reflexivity|].
  destruct e as [| | | | | | | | | | | |id [op|]| | | | | | |]; simpl; rewrite ?IH; reflexivity.
Qed.

Lemma pulled_quiet (evs : list Event) : quiet evs -> pulled evs = [].
Proof.
  induction 1 as [|e evs He _ IH]; simpl; [reflexivity|].
  destruct e as [| | | | | | | | | | | |id [op|]| | | | | | |]; simpl in *;
    try discriminate; exact IH.
Qed.

Lemma length_pulled (t : list Event) : length (pulled t) = count (is_sync PullOp) t.
Proof.
  induction t as [|e t IH]; simpl; [reflexivity|].
  destruct e as [| | | | | | | | | | | |id [op|]| | | | | | |]; simpl; rewrite ?IH; reflexivity.
Qed.

Section Quiet.

Context {A B : Type}.

Lemma appends_quietly_ret (a : A) : appends_quietly (ret a).
Proof. intros w. exists []. split; [constructor | simpl; rewrite app_nil_r; reflexivity]. Qed.

Lemma appends_quietly_panic (e : error) : appends_quietly (@panic A e).
Proof. intros w. exists []. split; [constructor | simpl; rewrite app_nil_r; reflexivity]. Qed.

Lemma appends_quietly_bind (m : M A) (k : A -> M B) :
  appends_quietly m -> (forall a, appends_quietly (k a)) -> appends_quietly (bind m k).
Proof.
  intros Hm Hk w. unfold bind. destruct (Hm w) as (evs1 & Q1 & E1).
  destruct (m w) as [a w1 | e w1]; cbn [result_world] in E1.
  - destruct (Hk a w1) as (evs2 & Q2 & E2). exists (evs1 ++ evs2).
    split; [apply quiet_app; assumption|]. rewrite E2, E1, app_assoc. reflexivity.
  - exists evs1. split; assumption.
Qed.

Lemma keeps_globals_ret (a : A) : keeps_globals (ret a).
Proof. intros w. reflexivity. Qed.

Lemma keeps_globals_panic (e : error) : keeps_globals (@panic A e).
Proof. intros w. reflexivity. Qed.

Lemma keeps_globals_bind (m : M A) (k : A -> M B) :
  keeps_globals m -> (forall a, keeps_globals (k a)) -> keeps_globals (bind m k).
Proof.
  intros Hm Hk w. unfold bind. specialize (Hm w).
  destruct (m w) as [a w1 | e w1]; cbn [result_world] in Hm.
  - rewrite Hk. exact Hm.
  - exact Hm.
Qed.

End Quiet.

Lemma appends_quietly_emit (e : Event) : sync_of e = None -> appends_quietly (emit e).
Proof. intros He w. exists [e]. split; [repeat constructor; exact He | reflexivity]. Qed.

Lemma appends_quietly_get : appends_quietly get.
Proof. intros w. exists []. split; [constructor | simpl; rewrite app_nil_r; reflexivity]. Qed.

Lemma appends_quietly_history : appends_quietly history.
Proof. intros w. exists []. split; [constructor | simpl; rewrite app_nil_r; reflexivity]. Qed.

Lemma appends_quietly_modify (f : Flags -> Flags) : appends_quietly (modify f).
Proof. intros w. exists []. split; [constructor | simpl; rewrite app_nil_r; reflexivity]. Qed.

Lemma keeps_globals_emit (e : Event) : keeps_globals (emit e).
Proof. intros w. reflexivity. Qed.

Lemma keeps_globals_get : keeps_globals get.
Proof. intros w. reflexivity. Qed.

Lemma keeps_globals_history : keeps_globals history.
Proof. intros w. reflexivity. Qed.

Ltac quietly :=
  repeat first
    [ apply appends_quietly_ret | apply appends_quietly_panic | apply appends_quietly_get
    | apply appends_quietly_history | apply appends_quietly_modify
    | apply appends_quietly_emit; reflexivity
    | apply appends_quietly_bind; [|intros ?]
    | match goal with
      | |- appends_quietly (when _ _) => unfold when
      | |- appends_quietly (panicOnError _) => unfold panicOnError
      | |- appends_quietly (match ?x with _ => _ end) => destruct x
      end ].

Ltac framed :=
  repeat first
    [ apply keeps_globals_ret | apply keeps_globals_panic | apply keeps_globals_get
    | apply keeps_globals_history | apply keeps_globals_emit
    | apply keeps_globals_bind; [|intros ?]
    | match goal with
      | |- keeps_globals (when _ _) => unfold when
      | |- keeps_globals (panicOnError _) => unfold panicOnError
      | |- keeps_globals (match ?x with _ => _ end) => destruct x
      end ].

Lemma appends_quietly_parseFlags (env : Env) : appends_quietly (parseFlags env).
Proof. unfold parseFlags, when. quietly. Qed.

Lemma appends_quietly_go_fetch_from (i n : nat) : appends_quietly (go_fetch_from i n).
Proof. revert i. induction n as [|n IH]; intros i; simpl; quietly. apply IH. Qed.

Lemma appends_quietly_main_startup (env : Env) : appends_quietly (main_startup env).
Proof.
  unfold main_startup, NewFileByLineOpsReader, NewCyclicOpsReader, reader_SetStartTime,
    reader_SkipOps, NewBestEffortOpsDispatcher, NewByTimeOpsDispatcher, when, panicOnError.
  quietly; try apply appends_quietly_parseFlags; try apply appends_quietly_go_fetch_from.
Qed.

Lemma appends_quietly_RetryOnSocketFailure (block : M (option error)) (session : nat) :
  appends_quietly block -> appends_quietly (RetryOnSocketFailure block session).
Proof.
  intros Hb. unfold RetryOnSocketFailure, session_Refresh, logger_Error. quietly; exact Hb.
Qed.

Lemma keeps_globals_RetryOnSocketFailure (block : M (option error)) (session : nat) :
  keeps_globals block -> keeps_globals (RetryOnSocketFailure block session).
Proof.
  intros Hb. unfold RetryOnSocketFailure, session_Refresh, logger_Error. framed; exact Hb.
Qed.

Lemma appends_quietly_fetch_enter (env : Env) (id : nat) : appends_quietly (fetch_enter env id).
Proof. unfold fetch_enter, logger_Infof, panicOnError. quietly. Qed.

Lemma keeps_globals_fetch_enter (env : Env) (id : nat) : keeps_globals (fetch_enter env id).
Proof. unfold fetch_enter, logger_Infof, panicOnError. framed. Qed.

Lemma appends_quietly_fetch_op (env : Env) (id : nat) (op : Op) :
  appends_quietly (fetch_op env id op).
Proof.
  unfold fetch_op, logger_Error, RetryOnSocketFailure, exec_Execute, session_Refresh. quietly.
Qed.

Lemma keeps_globals_fetch_op (env : Env) (id : nat) (op : Op) :
  keeps_globals (fetch_op env id op).
Proof.
  unfold fetch_op, logger_Error, RetryOnSocketFailure, exec_Execute, session_Refresh. framed.
Qed.

Lemma appends_quietly_fetch_leave (id : nat) : appends_quietly (fetch_leave id).
Proof. unfold fetch_leave, logger_Infof. quietly. Qed.

Lemma keeps_globals_fetch_leave (id : nat) : keeps_globals (fetch_leave id).
Proof. unfold fetch_leave, logger_Infof. framed. Qed.

Lemma appends_quietly_report (n : Z) : appends_quietly (report n).
Proof. unfold report, logger_Infof. quietly. Qed.

Lemma keeps_globals_report (n : Z) : keeps_globals (report n).
Proof. unfold report, logger_Infof. framed. Qed.

(** ** Invariants of the running process *)

Definition in_flight (pc : WorkerPc) : nat :=
  match pc with W_Run _ | W_Add => 1 | _ => 0 end.

Definition past_loop (pc : WorkerPc) : nat :=
  match pc with W_Exit | W_Bye | W_Done => 1 | _ => 0 end.

Definition signalled (pc : WorkerPc) : nat :=
  match pc with W_Bye | W_Done => 1 | _ => 0 end.

(** The ops among the values of the queue. *)
Definition feed_ops (l : list (option Op)) : list Op := omap id l.

Lemma wrap64_add_l (a b : Z) : wrap64 (wrap64 a + b) = wrap64 (a + b).
Proof.
  unfold wrap64.
  replace ((a + 2 ^ 63) mod 2 ^ 64 - 2 ^ 63 + b + 2 ^ 63) with ((a + 2 ^ 63) mod 2 ^ 64 + b) by lia.
  rewrite Zplus_mod_idemp_l. f_equal. f_equal. lia.
Qed.

Lemma wrap64_small (a : Z) : - 2 ^ 63 <= a < 2 ^ 63 -> wrap64 a = a.
Proof. intros H. unfold wrap64. rewrite Z.mod_small; lia. Qed.

Lemma sum_list_insert (f : WorkerPc -> nat) (l : list WorkerPc) (i : nat) (x y : WorkerPc) :
  l !! i = Some x ->
  (sum_list (f <$> <[i:=y]> l) + f x = sum_list (f <$> l) + f y)%nat.
Proof.
  revert i. induction l as [|a l IH]; intros i H; [discriminate|].
  destruct i as [|i]; csimpl in *.
  - inversion H; subst. lia.
  - specialize (IH i H). lia.
Qed.

Lemma sum_list_replicate (f : WorkerPc -> nat) (n : nat) (x : WorkerPc) :
  sum_list (f <$> replicate n x) = (n * f x)%nat.
Proof. induction n as [|n IH]; csimpl; [reflexivity|]. rewrite IH. reflexivity. Qed.

Lemma sum_list_bound (f : WorkerPc -> nat) (l : list WorkerPc) :
  (forall x, (f x <= 1)%nat) -> (sum_list (f <$> l) <= length l)%nat.
Proof.
  intros Hf. induction l as [|a l IH]; csimpl; [lia|]. specialize (Hf a). lia.
Qed.

Lemma sum_list_full (f : WorkerPc -> nat) (l : list WorkerPc) :
  (forall x, (f x <= 1)%nat) ->
  sum_list (f <$> l) = length l ->
  forall i x, l !! i = Some x -> f x = 1%nat.
Proof.
  intros Hf. induction l as [|a l IH]; intros Hs i x Hi; [discriminate|].
  csimpl in Hs. pose proof (sum_list_bound f l Hf). pose proof (Hf a).
  destruct i as [|i]; simpl in Hi.
  - inversion Hi; subst. lia.
  - apply (IH ltac:(lia) i x Hi).
Qed.

(** What holds of every state of a run whose queue initially held
    [ops0]: the counter is the number of increments so far (modulo
    2^64); the ops pulled are those increments plus the ops workers
    still hold; the ops pulled so far and those still queued make up
    the ops of [ops0]; and for each worker, its pulls, increments,
    sentinel and completion signal are in step with where it stands. *)
Record Inv (ops0 : list (option Op)) (s : State) : Prop := mkInv {
  inv_counter :
    opsExecuted s = wrap64 (Z.of_nat (count (is_sync Add) (trace (world s))));
  inv_pulls :
    count (is_sync PullOp) (trace (world s)) =
    (count (is_sync Add) (trace (world s)) + sum_list (in_flight <$> wpc s))%nat;
  inv_nils :
    count (is_sync PullNil) (trace (world s)) = sum_list (past_loop <$> wpc s);
  inv_exits :
    count (is_sync Exit) (trace (world s)) = sum_list (signalled <$> wpc s);
  inv_feed :
    pulled (trace (world s)) ++ feed_ops (feed s) = feed_ops ops0;
  inv_worker :
    forall i pc, wpc s !! i = Some pc ->
      count (is_sync_of PullOp i) (trace (world s)) =
      (count (is_sync_of Add i) (trace (world s)) + in_flight pc)%nat /\
      count (is_sync_of PullNil i) (trace (world s)) = past_loop pc /\
      count (is_sync_of Exit i) (trace (world s)) = signalled pc;
  inv_size :
    match status s with
    | Crashed _ => True
    | _ => length (wpc s) = Z.to_nat (workers (globals (world s)))
    end
}.

(** A move of worker [id] from [pc] to [pc'] that appends [evs], of
    which [d k] are synchronisation events of kind [k], all its own. *)
Lemma Inv_move (ops0 : list (option Op)) (s : State) (id : nat) (pc pc' : WorkerPc)
      (evs : list Event) (d : Sync -> nat) (g' : Flags) (st' : Status)
      (feed' : list (option Op)) (exec' recv' : Z) :
  Inv ops0 s ->
  status s = Running ->
  wpc s !! id = Some pc ->
  workers g' = workers (globals (world s)) ->
  (forall k, count (is_sync k) evs = d k) ->
  (forall k j, count (is_sync_of k j) evs = if Nat.eqb j id then d k else O) ->
  pulled evs ++ feed_ops feed' = feed_ops (feed s) ->
  (in_flight pc + d PullOp = in_flight pc' + d Add)%nat ->
  past_loop pc' = (past_loop pc + d PullNil)%nat ->
  signalled pc' = (signalled pc + d Exit)%nat ->
  exec' = wrap64 (opsExecuted s + Z.of_nat (d Add)) ->
  Inv ops0 (mkState (mkWorld g' (trace (world s) ++ evs)) st' feed' (closed s) exec'
                    (<[id:=pc']> (wpc s)) (rpc s) recv').
Proof.
  intros [Hc Hp Hn He Hf Hw Hz] Hst Hpc Hg Hany Hby Hfeed Hfl Hnil Hsig Hexec.
  pose proof (sum_list_insert in_flight _ _ _ pc' Hpc) as S1.
  pose proof (sum_list_insert past_loop _ _ _ pc' Hpc) as S2.
  pose proof (sum_list_insert signalled _ _ _ pc' Hpc) as S3.
  constructor; cbn [world trace globals wpc opsExecuted feed status].
  - rewrite Hexec, Hc, wrap64_add_l, count_app, Hany. f_equal. lia.
  - rewrite !count_app, !Hany. lia.
  - rewrite !count_app, !Hany. lia.
  - rewrite !count_app, !Hany. lia.
  - rewrite pulled_app, <- app_assoc, Hfeed. exact Hf.
  - intros i pci Hi. rewrite !count_app, !Hby.
    destruct (Nat.eqb_spec i id) as [-> | Hne].
    + rewrite list_lookup_insert_eq in Hi by (eapply lookup_lt_Some; eassumption).
      inversion Hi; subst pci. destruct (Hw id pc Hpc) as (W1 & W2 & W3). lia.
    + rewrite list_lookup_insert_ne in Hi by congruence.
      destruct (Hw i pci Hi) as (W1 & W2 & W3). lia.
  - rewrite Hst in Hz. rewrite length_insert, Hg. destruct st'; auto.
Qed.

(** A move that leaves the workers where they are and appends only
    quiet events. *)
Lemma Inv_stay (ops0 : list (option Op)) (s : State) (evs : list Event) (g' : Flags)
      (st' : Status) (rpc' : ReporterPc) (recv' : Z) :
  Inv ops0 s ->
  status s = Running ->
  workers g' = workers (globals (world s)) ->
  quiet evs ->
  Inv ops0 (mkState (mkWorld g' (trace (world s) ++ evs)) st' (feed s) (closed s)
                    (opsExecuted s) (wpc s) rpc' recv').
Proof.
  intros [Hc Hp Hn He Hf Hw Hz] Hst Hg Hq.
  constructor; cbn [world trace globals wpc opsExecuted feed status].
  - rewrite count_app, (count_quiet_any _ evs Hq), Nat.add_0_r. exact Hc.
  - rewrite !count_app, !(count_quiet_any _ evs Hq), !Nat.add_0_r. exact Hp.
  - rewrite !count_app, !(count_quiet_any _ evs Hq), !Nat.add_0_r. exact Hn.
  - rewrite !count_app, !(count_quiet_any _ evs Hq), !Nat.add_0_r. exact He.
  - rewrite pulled_app, (pulled_quiet evs Hq), app_nil_r. exact Hf.
  - intros i pci Hi. rewrite !count_app, !(count_quiet_by _ _ evs Hq), !Nat.add_0_r. auto.
  - rewrite Hst in Hz. rewrite Hg. destruct st'; auto.
Qed.

Lemma wrap64_idem (a : Z) : wrap64 (wrap64 a) = wrap64 a.
Proof. pose proof (wrap64_add_l a 0) as H. rewrite !Z.add_0_r in H. exact H. Qed.

Lemma counter_unchanged (ops0 : list (option Op)) (s : State) :
  Inv ops0 s -> opsExecuted s = wrap64 (opsExecuted s + Z.of_nat 0).
Proof.
  intros HI. change (Z.of_nat 0) with 0. rewrite Z.add_0_r.
  rewrite (inv_counter _ _ HI), wrap64_idem. reflexivity.
Qed.

Lemma Inv_move_to (ops0 : list (option Op)) (s : State) (id : nat) (pc pc' : WorkerPc)
      (evs : list Event) (d : Sync -> nat) (w' : World) (st' : Status)
      (feed' : list (option Op)) (exec' recv' : Z) :
  Inv ops0 s ->
  status s = Running ->
  wpc s !! id = Some pc ->
  trace w' = trace (world s) ++ evs ->
  globals w' = globals (world s) ->
  (forall k, count (is_sync k) evs = d k) ->
  (forall k j, count (is_sync_of k j) evs = if Nat.eqb j id then d k else O) ->
  pulled evs ++ feed_ops feed' = feed_ops (feed s) ->
  (in_flight pc + d PullOp = in_flight pc' + d Add)%nat ->
  past_loop pc' = (past_loop pc + d PullNil)%nat ->
  signalled pc' = (signalled pc + d Exit)%nat ->
  exec' = wrap64 (opsExecuted s + Z.of_nat (d Add)) ->
  Inv ops0 (mkState w' st' feed' (closed s) exec' (<[id:=pc']> (wpc s)) (rpc s) recv').
Proof.
  intros HI Hst Hpc Ht Hg. destruct w' as [g' t']. cbn [trace globals] in Ht, Hg. subst t'.
  apply Inv_move; try assumption. rewrite Hg. reflexivity.
Qed.

Lemma Inv_stay_at (ops0 : list (option Op)) (s : State) (evs : list Event) (w' : World)
      (st' : Status) (rpc' : ReporterPc) (recv' : Z) :
  Inv ops0 s ->
  status s = Running ->
  trace w' = trace (world s) ++ evs ->
  globals w' = globals (world s) ->
  quiet evs ->
  Inv ops0 (mkState w' st' (feed s) (closed s) (opsExecuted s) (wpc s) rpc' recv').
Proof.
  intros HI Hst Ht Hg. destruct w' as [g' t']. cbn [trace globals] in Ht, Hg. subst t'.
  apply Inv_stay; try assumption. rewrite Hg. reflexivity.
Qed.

(** A quiet move of a worker: nothing to count. *)
Lemma Inv_local (ops0 : list (option Op)) (s : State) (id : nat) (pc pc' : WorkerPc)
      (evs : list Event) (w' : World) (st' : Status) (recv' : Z) :
  Inv ops0 s ->
  status s = Running ->
  wpc s !! id = Some pc ->
  trace w' = trace (world s) ++ evs ->
  globals w' = globals (world s) ->
  quiet evs ->
  in_flight pc' = in_flight pc ->
  past_loop pc' = past_loop pc ->
  signalled pc' = signalled pc ->
  Inv ops0 (mkState w' st' (feed s) (closed s) (opsExecuted s) (<[id:=pc']> (wpc s)) (rpc s)
                    recv').
Proof.
  intros HI Hst Hpc Ht Hg Hq H1 H2 H3.
  apply (Inv_move_to ops0 s id pc pc' evs (fun _ => O)); try assumption.
  - intros k. apply count_quiet_any. exact Hq.
  - intros k j. rewrite count_quiet_by by exact Hq. destruct (Nat.eqb j id); reflexivity.
  - rewrite pulled_quiet by exact Hq. reflexivity.
  - lia.
  - lia.
  - lia.
  - eapply counter_unchanged; eassumption.
Qed.

Section Steps.

Variable env : Env.

(** What a stretch of sequential code does to the state. *)
Lemma local_cases (m : M unit) (s : State) (k : World -> State) :
  appends_quietly m ->
  keeps_globals m ->
  exists w evs,
    quiet evs /\ trace w = trace (world s) ++ evs /\ globals w = globals (world s) /\
    (local m s k = k w \/
     exists e, local m s k =
               mkState w (Crashed e) (feed s) (closed s) (opsExecuted s) (wpc s) (rpc s)
                       (received s)).
Proof.
  intros Hq Hg. unfold local. specialize (Hq (world s)). specialize (Hg (world s)).
  destruct Hq as (evs & Q & T).
  destruct (m (world s)) as [[] w | e w]; cbn [result_world] in *; exists w, evs;
    (split; [exact Q|]); (split; [exact T|]); (split; [exact Hg|]); eauto.
Qed.

Lemma step_Inv (ops0 : list (option Op)) (g : Goroutine) (s s' : State) :
  Inv ops0 s -> step env g s = Some s' -> Inv ops0 s'.
Proof.
  intros HI. unfold step. destruct (status s) eqn:Hst; try discriminate.
  destruct g as [|id|].
  - (* main *)
    unfold step_main. destruct (received s <? _); intros H; inversion H; subst s'.
    apply (Inv_stay_at ops0 s []); auto using app_nil_r. constructor.
  - (* a worker *)
    unfold step_fetch. destruct (wpc s !! id) as [pc|] eqn:Hpc; [|discriminate].
    destruct pc.
    + intros H; inversion H; subst s'; clear H.
      destruct (local_cases (fetch_enter env id) s
                  (fun w => mkState w (status s) (feed s) (closed s) (opsExecuted s)
                                    (<[id:=W_Pull]> (wpc s)) (rpc s) (received s))
                  (appends_quietly_fetch_enter env id) (keeps_globals_fetch_enter env id))
        as (w & evs & Q & T & G & [E | [e E]]); rewrite E.
      * apply (Inv_local ops0 s id W_Start W_Pull evs); auto.
      * apply (Inv_stay_at ops0 s evs); auto.
    + destruct (feed s) as [|[op|] rest] eqn:Hfeed.
      * destruct (closed s) eqn:Hcl; [|discriminate].
        intros H; inversion H; subst s'; clear H. rewrite <- Hcl.
        apply (Inv_move_to ops0 s id W_Pull W_Exit [EvPull id None]
                 (fun k => match k with PullNil => 1%nat | _ => O end)); auto.
        -- intros []; reflexivity.
        -- intros [] j; unfold is_sync_of; simpl; destruct (Nat.eqb j id); reflexivity.
        -- rewrite Hfeed. reflexivity.
        -- eapply counter_unchanged; eassumption.
      * intros H; inversion H; subst s'; clear H.
        apply (Inv_move_to ops0 s id W_Pull (W_Run op) [EvPull id (Some op)]
                 (fun k => match k with PullOp => 1%nat | _ => O end)); auto.
        -- intros []; reflexivity.
        -- intros [] j; unfold is_sync_of; simpl; destruct (Nat.eqb j id); reflexivity.
        -- rewrite Hfeed. reflexivity.
        -- eapply counter_unchanged; eassumption.
      * intros H; inversion H; subst s'; clear H.
        apply (Inv_move_to ops0 s id W_Pull W_Exit [EvPull id None]
                 (fun k => match k with PullNil => 1%nat | _ => O end)); auto.
        -- intros []; reflexivity.
        -- intros [] j; unfold is_sync_of; simpl; destruct (Nat.eqb j id); reflexivity.
        -- rewrite Hfeed. reflexivity.
        -- eapply counter_unchanged; eassumption.
    + intros H; inversion H; subst s'; clear H.
      destruct (local_cases (fetch_op env id op) s
                  (fun w => mkState w (status s) (feed s) (closed s) (opsExecuted s)
                                    (<[id:=W_Add]> (wpc s)) (rpc s) (received s))
                  (appends_quietly_fetch_op env id op) (keeps_globals_fetch_op env id op))
        as (w & evs & Q & T & G & [E | [e E]]); rewrite E.
      * apply (Inv_local ops0 s id (W_Run op) W_Add evs); auto.
      * apply (Inv_stay_at ops0 s evs); auto.
    + intros H; inversion H; subst s'; clear H.
      apply (Inv_move_to ops0 s id W_Add W_Pull [EvAdd id]
               (fun k => match k with Add => 1%nat | _ => O end)); auto.
      * intros []; reflexivity.
      * intros [] j; unfold is_sync_of; simpl; destruct (Nat.eqb j id); reflexivity.
    + destruct (received s <? _); [|discriminate].
      intros H; inversion H; subst s'; clear H.
      apply (Inv_move_to ops0 s id W_Exit W_Bye [EvExit id]
               (fun k => match k with Exit => 1%nat | _ => O end)); auto.
      * intros []; reflexivity.
      * intros [] j; unfold is_sync_of; simpl; destruct (Nat.eqb j id); reflexivity.
      * eapply counter_unchanged; eassumption.
    + intros H; inversion H; subst s'; clear H.
      destruct (local_cases (fetch_leave id) s
                  (fun w => mkState w (status s) (feed s) (closed s) (opsExecuted s)
                                    (<[id:=W_Done]> (wpc s)) (rpc s) (received s))
                  (appends_quietly_fetch_leave id) (keeps_globals_fetch_leave id))
        as (w & evs & Q & T & G & [E | [e E]]); rewrite E.
      * apply (Inv_local ops0 s id W_Bye W_Done evs); auto.
      * apply (Inv_stay_at ops0 s evs); auto.
    + discriminate.
  - (* the reporter *)
    unfold step_reporter, with_rpc. destruct (rpc s).
    + intros H; inversion H; subst s'.
      apply (Inv_stay_at ops0 s []); auto using app_nil_r. constructor.
    + destruct (opsExecuted s <? _); intros H; inversion H; subst s';
        apply (Inv_stay_at ops0 s []); auto using app_nil_r; constructor.
    + intros H; inversion H; subst s'.
      apply (Inv_stay_at ops0 s [EvSleep (5 * 1000000000)]); auto.
      repeat constructor.
    + intros H; inversion H; subst s'; clear H.
      destruct (local_cases (report (opsExecuted s)) s
                  (fun w => mkState w (status s) (feed s) (closed s) (opsExecuted s) (wpc s)
                                    R_Check (received s))
                  (appends_quietly_report _) (keeps_globals_report _))
        as (w & evs & Q & T & G & [E | [e E]]); rewrite E;
        apply (Inv_stay_at ops0 s evs); auto.
    + intros H; inversion H; subst s'; clear H.
      destruct (local_cases (report (opsExecuted s)) s
                  (fun w => mkState w (status s) (feed s) (closed s) (opsExecuted s) (wpc s)
                                    R_Done (received s))
                  (appends_quietly_report _) (keeps_globals_report _))
        as (w & evs & Q & T & G & [E | [e E]]); rewrite E;
        apply (Inv_stay_at ops0 s evs); auto.
    + discriminate.
Qed.

Lemma run_Inv (ops0 : list (option Op)) (sched : list Goroutine) (s : State) :
  Inv ops0 s -> Inv ops0 (run env sched s).
Proof.
  revert s. induction sched as [|g sched IH]; intros s HI; simpl; [exact HI|].
  apply IH. destruct (step env g s) as [s'|] eqn:E; simpl; [|exact HI].
  eapply step_Inv; eassumption.
Qed.

End Steps.

Section Effects.

Variable env : Env.

(** The effect of one step: it happens in a running process, leaves
    the globals alone and appends to the trace; either it appends only
    quiet events and leaves both counters alone (and if it ends the
    process, it is [main] returning with [received >= workers]), or it
    is one of the three synchronising moves of a worker. *)
Lemma step_effect (g : Goroutine) (s s' : State) :
  step env g s = Some s' ->
  status s = Running /\
  globals (world s') = globals (world s) /\
  exists evs,
    trace (world s') = trace (world s) ++ evs /\
    ((quiet evs /\ opsExecuted s' = opsExecuted s /\ received s' = received s /\
      (status s' = Exited ->
       g = GoMain /\ workers (globals (world s)) <= received s)) \/
     (exists id v, g = GoFetch id /\ evs = [EvPull id v] /\ status s' = Running /\
                   opsExecuted s' = opsExecuted s /\ received s' = received s) \/
     (exists id, g = GoFetch id /\ evs = [EvAdd id] /\ status s' = Running /\
                 wpc s !! id = Some W_Add /\ wpc s' !! id = Some W_Pull /\
                 opsExecuted s' = AddInt64 (opsExecuted s) 1 /\ received s' = received s) \/
     (exists id, g = GoFetch id /\ evs = [EvExit id] /\ status s' = Running /\
                 received s < workers (globals (world s)) /\
                 opsExecuted s' = opsExecuted s /\
                 received s' = AddInt64 (received s) 1)).
Proof.
  unfold step. destruct (status s) eqn:Hst; try discriminate.
  assert (Hlocal : forall (m : M unit) (k : World -> State),
             appends_quietly m -> keeps_globals m ->
             (forall w, status (k w) = Running /\ world (k w) = w /\
                        opsExecuted (k w) = opsExecuted s /\ received (k w) = received s) ->
             Running = Running /\
             globals (world (local m s k)) = globals (world s) /\
             exists evs,
               trace (world (local m s k)) = trace (world s) ++ evs /\
               ((quiet evs /\ opsExecuted (local m s k) = opsExecuted s /\
                 received (local m s k) = received s /\
                 (status (local m s k) = Exited ->
                  g = GoMain /\ workers (globals (world s)) <= received s)) \/
                (exists id v, g = GoFetch id /\ evs = [EvPull id v] /\
                              status (local m s k) = Running /\
                              opsExecuted (local m s k) = opsExecuted s /\
                              received (local m s k) = received s) \/
                (exists id, g = GoFetch id /\ evs = [EvAdd id] /\
                            status (local m s k) = Running /\
                            wpc s !! id = Some W_Add /\ wpc (local m s k) !! id = Some W_Pull /\
                            opsExecuted (local m s k) = AddInt64 (opsExecuted s) 1 /\
                            received (local m s k) = received s) \/
                (exists id, g = GoFetch id /\ evs = [EvExit id] /\
                            status (local m s k) = Running /\
                            received s < workers (globals (world s)) /\
                            opsExecuted (local m s k) = opsExecuted s /\
                            received (local m s k) = AddInt64 (received s) 1))).
  { intros m k Hq Hg Hk.
    destruct (local_cases m s k Hq Hg) as (w & evs & Q & T & G & [E | [e E]]); rewrite E.
    - destruct (Hk w) as (K1 & K2 & K3 & K4). rewrite K2.
      split; [reflexivity|]. split; [exact G|]. exists evs. split; [exact T|].
      left. rewrite K1. repeat split; auto; discriminate.
    - cbn [world status opsExecuted received].
      split; [reflexivity|]. split; [exact G|]. exists evs. split; [exact T|].
      left. repeat split; auto; discriminate. }
  destruct g as [|id|].
  - unfold step_main.
    destruct (Z.ltb_spec (received s) (workers (globals (world s)))) as [Hlt|Hge];
      intros Hs'; inversion Hs'; subst s'. cbn [world status opsExecuted received].
    split; [reflexivity|]. split; [reflexivity|]. exists []. rewrite app_nil_r.
    split; [reflexivity|]. left. repeat split; auto. constructor.
  - unfold step_fetch. destruct (wpc s !! id) as [pc|] eqn:Hpc; [|discriminate].
    destruct pc.
    + intros H; inversion H; subst s'; clear H.
      apply Hlocal; [apply appends_quietly_fetch_enter | apply keeps_globals_fetch_enter|].
      intros w. cbn. auto.
    + destruct (feed s) as [|[op|] rest] eqn:Hfeed;
        [destruct (closed s); [|discriminate]| |];
        intros H; inversion H; subst s'; clear H;
        cbn [world status opsExecuted received log_event trace globals];
        (split; [reflexivity|]); (split; [reflexivity|]);
        eexists; (split; [reflexivity|]); right; left; eauto 10.
    + intros H; inversion H; subst s'; clear H.
      apply Hlocal; [apply appends_quietly_fetch_op | apply keeps_globals_fetch_op|].
      intros w. cbn. auto.
    + intros H; inversion H; subst s'; clear H.
      cbn [world status opsExecuted received log_event trace globals wpc].
      split; [reflexivity|]. split; [reflexivity|].
      eexists; split; [reflexivity|]. right; right; left. exists id.
      repeat split; auto.
      apply list_lookup_insert_eq. eapply lookup_lt_Some; eassumption.
    + destruct (Z.ltb_spec (received s) (workers (globals (world s)))) as [Hlt|Hge];
        [|discriminate].
      intros H'; inversion H'; subst s'; clear H'.
      cbn [world status opsExecuted received log_event trace globals].
      split; [reflexivity|]. split; [reflexivity|].
      eexists; split; [reflexivity|]. right; right; right. exists id.
      repeat split; auto.
    + intros H; inversion H; subst s'; clear H.
      apply Hlocal; [apply appends_quietly_fetch_leave | apply keeps_globals_fetch_leave|].
      intros w. cbn. auto.
    + discriminate.
  - unfold step_reporter. destruct (rpc s).
    + intros H; inversion H; subst s'. cbn. rewrite Hst.
      split; [reflexivity|]. split; [reflexivity|]. exists []. rewrite app_nil_r.
      split; [reflexivity|]. left. repeat split; auto; try discriminate. constructor.
    + destruct (opsExecuted s <? _); intros H; inversion H; subst s'; cbn; rewrite Hst;
        (split; [reflexivity|]); (split; [reflexivity|]); exists []; rewrite app_nil_r;
        (split; [reflexivity|]); left; repeat split; auto; try discriminate; constructor.
    + intros H; inversion H; subst s'. cbn. rewrite Hst.
      split; [reflexivity|]. split; [reflexivity|]. eexists.
      split; [reflexivity|]. left. repeat split; auto; try discriminate. repeat constructor.
    + intros H; inversion H; subst s'; clear H.
      apply Hlocal; [apply appends_quietly_report | apply keeps_globals_report|].
      intros w. cbn. auto.
    + intros H; inversion H; subst s'; clear H.
      apply Hlocal; [apply appends_quietly_report | apply keeps_globals_report|].
      intros w. cbn. auto.
    + discriminate.
Qed.

End Effects.

(** ** The counter of executed ops *)

Lemma spawned_Inv (ops : list (option Op)) (w : World) (cl : bool) :
  quiet (trace w) -> Inv ops (spawned w ops cl).
Proof.
  intros Hq. constructor; cbn [spawned world opsExecuted wpc feed status].
  - rewrite count_quiet_any by exact Hq. reflexivity.
  - rewrite !count_quiet_any by exact Hq. rewrite sum_list_replicate.
    cbn [in_flight]. lia.
  - rewrite !count_quiet_any by exact Hq. rewrite sum_list_replicate.
    cbn [past_loop]. lia.
  - rewrite !count_quiet_any by exact Hq. rewrite sum_list_replicate.
    cbn [signalled]. lia.
  - rewrite pulled_quiet by exact Hq. reflexivity.
  - intros i pc Hi. apply lookup_replicate in Hi. destruct Hi as [-> _].
    rewrite !count_quiet_by by exact Hq. auto.
  - apply length_replicate.
Qed.

Lemma main_startup_quiet (env : Env) (fl : Flags) :
  quiet (trace (result_world (main_startup env (mkWorld fl [])))).
Proof.
  destruct (appends_quietly_main_startup env (mkWorld fl [])) as (evs & Q & T).
  rewrite T. exact Q.
Qed.

Lemma main_Inv (env : Env) (fl : Flags) (ops : list (option Op)) (cl : bool)
      (sched : list Goroutine) :
  Inv ops (main env fl ops cl sched).
Proof.
  unfold main. pose proof (main_startup_quiet env fl) as Hq.
  destruct (main_startup env (mkWorld fl [])) as [d w | e w]; cbn [result_world] in Hq.
  - apply run_Inv, spawned_Inv, Hq.
  - constructor; cbn [world opsExecuted wpc feed status];
      rewrite ?count_quiet_any, ?pulled_quiet by exact Hq; auto.
    intros i pc Hi. discriminate.
Qed.


Definition three_ops : list (option Op) :=
  [Some an_op; Some (mkOp 1396456709420 "query" "{}"); Some (mkOp 1396456709421 "update" "{}");
   None; None].

(** Worker 0 handles one op (with a retry) and stands before its
    increment for the second; worker 1 has pulled the third. *)
Definition busy_schedule : list Goroutine :=
  [GoFetch 0; GoFetch 1; GoFetch 0; GoFetch 0; GoFetch 0; GoFetch 0; GoFetch 0; GoFetch 1].


(** ** Completion signals *)

(** [received] counts the completion signals [main] has taken, and
    [main] has only returned once it had [N] of them. *)
Record InvExit (N : Z) (s : State) : Prop := mkInvExit {
  exit_workers : workers (globals (world s)) = N;
  exit_received : received s = Z.of_nat (count (is_sync Exit) (trace (world s)));
  exit_returned : status s = Exited -> N <= received s
}.

Lemma step_InvExit (env : Env) (N : Z) (g : Goroutine) (s s' : State) :
  N < 2 ^ 63 ->
  InvExit N s -> step env g s = Some s' -> InvExit N s'.
Proof.
  intros HN [Hw Hr Hx] Hstep. apply step_effect in Hstep.
  destruct Hstep as (Hst & Hg & evs & Ht & H).
  constructor; rewrite ?Hg, ?Ht, ?count_app; [exact Hw| |].
  - destruct H as [(Q & _ & R & _) | [(id & v & _ & -> & _ & _ & R) |
                  [(id & _ & -> & _ & _ & _ & _ & R) | (id & _ & -> & _ & Hlt & _ & R)]]].
    + rewrite (count_quiet_any _ evs Q), R, Hr. lia.
    + rewrite R, Hr. destruct v; simpl; lia.
    + rewrite R, Hr. simpl. lia.
    + rewrite R. unfold AddInt64. rewrite wrap64_small by lia. rewrite Hr. simpl. lia.
  - intros Hex.
    destruct H as [(_ & _ & R & Hm) | [(id & v & _ & _ & Hs' & _) |
                  [(id & _ & _ & Hs' & _) | (id & _ & _ & Hs' & _)]]];
      try (rewrite Hs' in Hex; discriminate).
    rewrite R. destruct (Hm Hex) as [_ Hle]. lia.
Qed.

Lemma run_InvExit (env : Env) (N : Z) (sched : list Goroutine) (s : State) :
  N < 2 ^ 63 ->
  InvExit N s -> InvExit N (run env sched s).
Proof.
  intros HN. revert s. induction sched as [|g sched IH]; intros s HI; simpl; [exact HI|].
  apply IH. destruct (step env g s) as [s'|] eqn:E; simpl; [|exact HI].
  eapply step_InvExit; eassumption.
Qed.

Lemma workers_after_startup (env : Env) (fl : Flags) :
  workers (globals (result_world (main_startup env (mkWorld fl [])))) = workers fl.
Proof.
  destruct (flags_accepted_or_not fl) as [[Hs Hw] | Hbad].
  - rewrite main_startup_outcome by assumption. unfold startup_outcome. cbv zeta.
    destruct (OpenFile env _); [apply workers_parsed|].
    destruct (if startTime _ >? 0 then _ else None); [apply workers_parsed|].
    destruct (if numSkipOps _ >? 0 then _ else None); apply workers_parsed.
  - destruct (main_startup_rejected env fl Hbad) as (e & _ & Hm). rewrite Hm. reflexivity.
Qed.

Lemma main_InvExit (env : Env) (fl : Flags) (ops : list (option Op)) (cl : bool)
      (sched : list Goroutine) :
  workers fl < 2 ^ 63 ->
  InvExit (workers fl) (main env fl ops cl sched).
Proof.
  intros HN. unfold main. pose proof (main_startup_quiet env fl) as Hq.
  pose proof (workers_after_startup env fl) as Hw.
  destruct (main_startup env (mkWorld fl [])) as [d w | e w]; cbn [result_world] in Hq, Hw.
  - apply run_InvExit; [exact HN|].
    constructor; cbn [spawned world received status]; [exact Hw| |discriminate].
    rewrite count_quiet_any by exact Hq. reflexivity.
  - constructor; cbn [world received status]; [exact Hw| |discriminate].
    rewrite count_quiet_any by exact Hq. reflexivity.
Qed.

Lemma main_Running_or_Exited (env : Env) (fl : Flags) (ops : list (option Op)) (cl : bool)
      (sched : list Goroutine) :
  status (main env fl ops cl sched) = Running \/ status (main env fl ops cl sched) = Exited ->
  0 < workers fl.
Proof.
  intros H. destruct (flags_accepted_or_not fl) as [[_ Hw] | Hbad]; [exact Hw|].
  exfalso. unfold main in H.
  destruct (main_startup_rejected env fl Hbad) as (e & _ & Hm). rewrite Hm in H.
  cbn [status] in H. destruct H; discriminate.
Qed.

Lemma signalled_le_1 (pc : WorkerPc) : (signalled pc <= 1)%nat.
Proof. destruct pc; simpl; lia. Qed.

Lemma signalled_past_loop (pc : WorkerPc) : (signalled pc <= past_loop pc <= 1)%nat.
Proof. destruct pc; simpl; lia. Qed.

(** ** A schedule under which [main] returns *)

(** Worker [id] alone: it starts, handles [n] ops, pulls the sentinel,
    hands its completion signal to [main] and leaves. *)
Fixpoint drain_schedule (id : nat) (n : nat) : list Goroutine :=
  match n with
  | O => []
  | S n' => GoFetch id :: GoFetch id :: GoFetch id :: drain_schedule id n'
  end.

Definition worker_schedule (id : nat) (n : nat) : list Goroutine :=
  [GoFetch id] ++ drain_schedule id n ++ [GoFetch id; GoFetch id; GoFetch id].

(** Worker 0 handles all [n] ops, the others find the sentinel at once,
    then [main] returns. *)
Definition sequential_schedule (workers : nat) (n : nat) : list Goroutine :=
  match workers with
  | O => [GoMain]
  | S k =>
    worker_schedule 0 n ++ concat (map (fun id => worker_schedule id 0) (seq 1 k)) ++ [GoMain]
  end.

Section Progress.

Variable env : Env.
Hypothesis Dial_succeeds : forall h u, Dial env h u = None.






















End Progress.



(** ** The reporter *)

Definition one_op_flags : Flags :=
  mkFlags 1 0 "ops.json" DEFAULT_MGO_SOCKET_TIMEOUT 0 "stress" "localhost" false 1 "" "" None.

(** The reporter reaches its first sleep; meanwhile the only worker
    executes the only op, pulls the sentinel and signals; [main]
    returns. *)
Definition sleepy_reporter_schedule : list Goroutine :=
  [GoReporter; GoReporter;
   GoFetch 0; GoFetch 0; GoFetch 0; GoFetch 0; GoFetch 0; GoFetch 0;
   GoMain;
   GoReporter; GoReporter; GoReporter; GoFetch 0].

(** The same run, but the reporter is only scheduled once the op has
    been counted, and it runs to its end before [main] returns. *)
Definition prompt_reporter_schedule : list Goroutine :=
  [GoFetch 0; GoFetch 0; GoFetch 0; GoFetch 0; GoFetch 0; GoFetch 0;
   GoReporter; GoReporter; GoReporter;
   GoMain].

(** C6, on the code. With [maxOps = 1], one worker and one op, the
    process can end ([main] returns as soon as it has the worker's
    signal) with the counter at [maxOps] and no report emitted at all:
    the reporter is still in its first sleep and nothing waits for it;
    what is scheduled after [main]'s return does not happen.  Under
    another schedule the same run emits exactly one report, the final
    one. *)
Theorem final_report_can_be_lost :
  (let s := main env_healthy one_op_flags [Some an_op; None] false sleepy_reporter_schedule in
   status s = Exited /\ opsExecuted s = 1 /\ maxOps (globals (world s)) = 1 /\
   rpc s = R_Sleep /\ count is_report (trace (world s)) = O) /\
  (let s := main env_healthy one_op_flags [Some an_op; None] false prompt_reporter_schedule in
   status s = Exited /\ opsExecuted s = 1 /\ maxOps (globals (world s)) = 1 /\
   rpc s = R_Done /\ count is_report (trace (world s)) = 1%nat).
Proof. vm_compute. repeat split. Qed.

(** ** The command line *)

Definition set_numSkipOps (v : Z) (g : Flags) : Flags :=
  {| maxOps := maxOps g; numSkipOps := v; opsFilename := opsFilename g;
     socketTimeout := socketTimeout g; startTime := startTime g; style := style g;
     url := url g; verbose := verbose g; workers := workers g;
     stderr := stderr g; stdout := stdout g; logger := logger g |}.

Definition set_opsFilename (v : string) (g : Flags) : Flags :=
  {| maxOps := maxOps g; numSkipOps := numSkipOps g; opsFilename := v;
     socketTimeout := socketTimeout g; startTime := startTime g; style := style g;
     url := url g; verbose := verbose g; workers := workers g;
     stderr := stderr g; stdout := stdout g; logger := logger g |}.

Definition set_socketTimeout (v : Z) (g : Flags) : Flags :=
  {| maxOps := maxOps g; numSkipOps := numSkipOps g; opsFilename := opsFilename g;
     socketTimeout := v; startTime := startTime g; style := style g;
     url := url g; verbose := verbose g; workers := workers g;
     stderr := stderr g; stdout := stdout g; logger := logger g |}.

Definition set_startTime (v : Z) (g : Flags) : Flags :=
  {| maxOps := maxOps g; numSkipOps := numSkipOps g; opsFilename := opsFilename g;
     socketTimeout := socketTimeout g; startTime := v; style := style g;
     url := url g; verbose := verbose g; workers := workers g;
     stderr := stderr g; stdout := stdout g; logger := logger g |}.

Definition set_style (v : string) (g : Flags) : Flags :=
  {| maxOps := maxOps g; numSkipOps := numSkipOps g; opsFilename := opsFilename g;
     socketTimeout := socketTimeout g; startTime := startTime g; style := v;
     url := url g; verbose := verbose g; workers := workers g;
     stderr := stderr g; stdout := stdout g; logger := logger g |}.

Definition set_url (v : string) (g : Flags) : Flags :=
  {| maxOps := maxOps g; numSkipOps := numSkipOps g; opsFilename := opsFilename g;
     socketTimeout := socketTimeout g; startTime := startTime g; style := style g;
     url := v; verbose := verbose g; workers := workers g;
     stderr := stderr g; stdout := stdout g; logger := logger g |}.

Definition set_verbose (v : bool) (g : Flags) : Flags :=
  {| maxOps := maxOps g; numSkipOps := numSkipOps g; opsFilename := opsFilename g;
     socketTimeout := socketTimeout g; startTime := startTime g; style := style g;
     url := url g; verbose := v; workers := workers g;
     stderr := stderr g; stdout := stdout g; logger := logger g |}.

Definition set_workers (v : Z) (g : Flags) : Flags :=
  {| maxOps := maxOps g; numSkipOps := numSkipOps g; opsFilename := opsFilename g;
     socketTimeout := socketTimeout g; startTime := startTime g; style := style g;
     url := url g; verbose := verbose g; workers := v;
     stderr := stderr g; stdout := stdout g; logger := logger g |}.

Definition set_stderr (v : string) (g : Flags) : Flags :=
  {| maxOps := maxOps g; numSkipOps := numSkipOps g; opsFilename := opsFilename g;
     socketTimeout := socketTimeout g; startTime := startTime g; style := style g;
     url := url g; verbose := verbose g; workers := workers g;
     stderr := v; stdout := stdout g; logger := logger g |}.

(** A value given for a flag, as the [flag] package hands it to a
    variable of the type the flag was registered with. *)
Inductive FlagValue : Type :=
| StringValue (s : string)
| IntValue (n : Z)
| Int64Value (n : Z)
| Float64Value (text : string)
| BoolValue (b : bool).

(** [func init()]: the variable each flag name is bound to, as what
    setting the flag does to the variables; [None] for a name, or a
    type, no flag was registered with.  The flags "stderr" and "stdout"
    are both bound to [&stderr] (lines 65-66).  "sample_rate" is bound
    to [sampleRate], which is left out. *)
Definition flag_Set (name : string) (v : FlagValue) (g : Flags) : option Flags :=
  match v with
  | StringValue s =>
    if (name =? "ops_filename")%string then Some (set_opsFilename s g)
    else if (name =? "url")%string then Some (set_url s g)
    else if (name =? "style")%string then Some (set_style s g)
    else if (name =? "stderr")%string then Some (set_stderr s g)
    else if (name =? "stdout")%string then Some (set_stderr s g)
    else None
  | IntValue n =>
    if (name =? "workers")%string then Some (set_workers n g)
    else if (name =? "maxOps")%string then Some (set_maxOps n g)
    else if (name =? "numSkipOps")%string then Some (set_numSkipOps n g)
    else None
  | Int64Value n =>
    if (name =? "socketTimeout")%string then Some (set_socketTimeout n g)
    else if (name =? "start_time")%string then Some (set_startTime n g)
    else None
  | Float64Value _ =>
    if (name =? "sample_rate")%string then Some g else None
  | BoolValue b =>
    if (name =? "verbose")%string then Some (set_verbose b g) else None
  end.

(** [flag.Parse()] (line 70): the flags of the command line are set one
    after the other; a flag that cannot be set ends the process. *)
Fixpoint flag_Parse (args : list (string * FlagValue)) (g : Flags) : option Flags :=
  match args with
  | [] => Some g
  | (name, v) :: rest =>
    match flag_Set name v g with
    | Some g' => flag_Parse rest g'
    | None => None
    end
  end.

(** The last value given for "stderr" or "stdout", [d] if there is none. *)
Fixpoint log_target (d : string) (args : list (string * FlagValue)) : string :=
  match args with
  | [] => d
  | (name, StringValue s) :: rest =>
    log_target (if (name =? "stderr")%string || (name =? "stdout")%string then s else d) rest
  | _ :: rest => log_target d rest
  end.

Lemma flag_Set_frame (name : string) (v : FlagValue) (g g' : Flags) :
  flag_Set name v g = Some g' ->
  stdout g' = stdout g /\ logger g' = logger g /\
  stderr g' =
  match v with
  | StringValue s => if (name =? "stderr")%string || (name =? "stdout")%string then s else stderr g
  | _ => stderr g
  end /\
  (name <> "style" -> style g' = style g).
Proof.
  unfold flag_Set. intros H.
  destruct v;
    repeat match type of H with
           | (if (?a =? ?b)%string then _ else _) = _ =>
             let E := fresh "E" in destruct (String.eqb_spec a b) as [E|E]
           end;
    try discriminate; inversion H; subst; cbn; auto; repeat split; auto; congruence.
Qed.

Lemma flag_Parse_frame (args : list (string * FlagValue)) (g g' : Flags) :
  flag_Parse args g = Some g' ->
  stdout g' = stdout g /\ logger g' = logger g /\ stderr g' = log_target (stderr g) args /\
  ((forall v, ~ In ("style", v) args) -> style g' = style g).
Proof.
  revert g. induction args as [|[name v] rest IH]; intros g H; simpl in H.
  - inversion H. auto.
  - destruct (flag_Set name v g) as [g1|] eqn:E; [|discriminate].
    apply flag_Set_frame in E. destruct E as (E1 & E2 & E3 & E4).
    destruct (IH g1 H) as (I1 & I2 & I3 & I4).
    split; [congruence|]. split; [congruence|]. split.
    + rewrite I3, E3. destruct v; reflexivity.
    + intros Hno. rewrite I4, E4; auto.
      * intros ->. apply (Hno v). left. reflexivity.
      * intros v' Hin. apply (Hno v'). right. exact Hin.
Qed.

Lemma parseFlags_bad_style (env : Env) (w : World) :
  style (globals w) <> "stress" -> style (globals w) <> "real" ->
  parseFlags env w =
  Ok (Some (errors_New (String.append "Cannot recognize the style: " (style (globals w))))) w.
Proof.
  intros H1 H2. unfold parseFlags, bind, get.
  apply String.eqb_neq in H1, H2. rewrite H1, H2. reflexivity.
Qed.

(** X1. Whatever the command line, the variable [stdout] is never
    set: both "-stderr" and "-stdout" write [stderr], the last of them
    wins, and [parseFlags], when it accepts the flags, calls
    [NewLogger] with an empty first argument and that value as the
    second. *)
Theorem stdout_flag_sets_stderr (args : list (string * FlagValue)) (g : Flags) :
  flag_Parse args default_flags = Some g ->
  stdout g = "" /\
  stderr g = log_target "" args /\
  forall (env : Env) (t : list Event),
    style g = "stress" \/ style g = "real" ->
    0 < workers g ->
    parseFlags env (mkWorld g t) =
    Ok None (mkWorld (parsed env g) (t ++ [EvNewLogger "" (log_target "" args)])).
Proof.
  intros H. apply flag_Parse_frame in H. destruct H as (H1 & _ & H3 & _).
  cbn in H1, H3. split; [exact H1|]. split; [exact H3|].
  intros env t Hs Hw. rewrite (parseFlags_accepts env (mkWorld g t) Hs Hw).
  cbn [globals trace]. rewrite H1, H3. reflexivity.
Qed.

Definition stdout_command_line : list (string * FlagValue) :=
  [("style", StringValue "stress"); ("stderr", StringValue "err.log");
   ("workers", IntValue 2); ("stdout", StringValue "out.log")].

Lemma stdout_flag_sets_stderr_witness :
  exists g,
    flag_Parse stdout_command_line default_flags = Some g /\
    stdout g = "" /\ stderr g = "out.log" /\
    parseFlags env_healthy (mkWorld g []) =
    Ok None (mkWorld (parsed env_healthy g) [EvNewLogger "" "out.log"]).
Proof.
  eexists. split; [reflexivity|].
  destruct (stdout_flag_sets_stderr stdout_command_line _ eq_refl) as (H1 & H2 & H3).
  split; [exact H1|]. split; [exact H2|].
  apply (H3 env_healthy []); [left; reflexivity | reflexivity].
Defined.

(** X2. "-style" is required: on a command line without it [style]
    keeps its default, the empty string, which [parseFlags] rejects, and
    [main] panics with "Cannot recognize the style: " before anything
    else happens, whatever the other flags are. *)
Theorem style_flag_is_required (args : list (string * FlagValue)) (g : Flags) (env : Env)
        (ops : list (option Op)) (cl : bool) (sched : list Goroutine) :
  flag_Parse args default_flags = Some g ->
  (forall v, ~ In ("style", v) args) ->
  main env g ops cl sched =
  mkState (mkWorld g [EvGOMAXPROCS 100])
          (Crashed (ErrorString "Cannot recognize the style: ")) ops cl 0 [] R_Start 0.
Proof.
  intros H Hno. apply flag_Parse_frame in H. destruct H as (_ & _ & _ & H4).
  specialize (H4 Hno). cbn in H4.
  unfold main, main_startup. unfold bind at 1. cbn [emit globals trace app].
  unfold bind at 1. rewrite parseFlags_bad_style; cbn [globals]; rewrite H4; try discriminate.
  reflexivity.
Qed.

Lemma style_flag_is_required_witness :
  exists g,
    flag_Parse [("workers", IntValue 4); ("url", StringValue "localhost")] default_flags = Some g /\
    main env_healthy g [Some an_op; None] false [GoFetch 0; GoMain] =
    mkState (mkWorld g [EvGOMAXPROCS 100])
            (Crashed (ErrorString "Cannot recognize the style: ")) [Some an_op; None] false
            0 [] R_Start 0.
Proof.
  eexists. split; [reflexivity|].
  apply (style_flag_is_required [("workers", IntValue 4); ("url", StringValue "localhost")]).
  - reflexivity.
  - intros v [H | [H | []]]; discriminate H.
Defined.

(** ** Failures of the reader at start-up *)



Lemma reader_for_parsed (env : Env) (g : Flags) : reader_for (parsed env g) = reader_for g.
Proof. unfold reader_for. rewrite style_parsed, opsFilename_parsed. reflexivity. Qed.






(** ** The steps of a run, one by one *)

(** What [fetch] logs for the result [r] of an op (lines 174-176). *)
Definition verbose_log (vb : bool) (r : option error) : list Event :=
  match r with
  | Some e => if vb then [EvLog (Error_op e)] else []
  | None => []
  end.

(** The events handling [op] adds to the history [h]. *)
Definition op_events (env : Env) (id : nat) (op : Op) (vb : bool) (h : list Event) : list Event :=
  let r1 := Execute env h id op in
  match r1 with
  | Some e =>
    if recognized_permanent e then EvExecute id op r1 :: verbose_log vb r1
    else
      let retry := [EvExecute id op r1; EvRefresh id; EvLog (Error_retrying e)] in
      let r2 := Execute env (h ++ retry) id op in
      retry ++ EvExecute id op r2 :: verbose_log vb r2
  | None => [EvExecute id op None]
  end.

Lemma fetch_op_eq (env : Env) (id : nat) (op : Op) (w : World) :
  fetch_op env id op w =
  Ok tt (mkWorld (globals w)
                 (trace w ++ op_events env id op (verbose (globals w)) (trace w))).
Proof.
  unfold fetch_op, op_events, bind. cbv zeta.
  destruct (Execute env (trace w) id op) as [e|] eqn:E1.
  - destruct (recognized_permanent e) eqn:Ep.
    + pose proof (RetryOnSocketFailure_exec_final env id op w) as Hone.
      cbv zeta in Hone. rewrite E1 in Hone. rewrite (Hone Ep). cbn [get globals].
      destruct (verbose (globals w)); unfold logger_Error, emit, ret, verbose_log;
        cbn [globals trace]; rewrite <- ?app_assoc; reflexivity.
    + rewrite (RetryOnSocketFailure_exec_again env id op w e E1 Ep). cbn [get globals].
      clear E1. destruct (Execute env _ id op), (verbose (globals w));
        unfold logger_Error, emit, ret, verbose_log;
        cbn [globals trace]; rewrite <- ?app_assoc; reflexivity.
  - pose proof (RetryOnSocketFailure_exec_final env id op w) as Hone.
    cbv zeta in Hone. rewrite E1 in Hone. rewrite (Hone I). cbn [get globals].
    destruct (verbose (globals w)); reflexivity.
Qed.

Lemma fetch_enter_eq (env : Env) (id : nat) (w : World) :
  fetch_enter env id w =
  match Dial env (trace w ++ [EvLog (Info_report_for_duty id)]) (url (globals w)) with
  | Some e =>
    Panicked e (mkWorld (globals w)
                        (trace w ++ [EvLog (Info_report_for_duty id); EvDial id (url (globals w))]))
  | None =>
    Ok tt (mkWorld (globals w)
                   (trace w ++ [EvLog (Info_report_for_duty id); EvDial id (url (globals w));
                                EvSetSocketTimeout id (socketTimeout (globals w))]))
  end.
Proof.
  unfold fetch_enter, logger_Infof, bind, emit, get, history, panicOnError, panic, ret.
  cbn [globals trace].
  destruct (Dial env _ _); cbn [globals trace]; rewrite <- ?app_assoc; reflexivity.
Qed.

Lemma fetch_leave_eq (id : nat) (w : World) :
  fetch_leave id w = Ok tt (mkWorld (globals w) (trace w ++ [EvLog (Info_done id); EvClose id])).
Proof.
  unfold fetch_leave, logger_Infof, bind, emit. cbn [globals trace].
  rewrite <- app_assoc. reflexivity.
Qed.

Lemma report_eq (n : Z) (w : World) :
  report n w = Ok tt (mkWorld (globals w) (trace w ++ [EvReport; EvLog (Info_executed n)])).
Proof.
  unfold report, logger_Infof, bind, emit. cbn [globals trace].
  rewrite <- app_assoc. reflexivity.
Qed.

(** [s'] is [s] with [evs] appended to the trace and the given status,
    queue, counter, workers, reporter and number of signals taken. *)
Record Becomes (s s' : State) (evs : list Event) (st : Status) (f : list (option Op)) (x : Z)
       (pcs : list WorkerPc) (r : ReporterPc) (n : Z) : Prop := mkBecomes {
  to_globals : globals (world s') = globals (world s);
  to_trace : trace (world s') = trace (world s) ++ evs;
  to_status : status s' = st;
  to_feed : feed s' = f;
  to_closed : closed s' = closed s;
  to_opsExecuted : opsExecuted s' = x;
  to_wpc : wpc s' = pcs;
  to_rpc : rpc s' = r;
  to_received : received s' = n
}.

(** The moves of the goroutines, as a relation: every step of [step]
    is one of these. *)
Inductive Move (env : Env) (s : State) : Goroutine -> State -> Prop :=
| Move_return s' :
    workers (globals (world s)) <= received s ->
    Becomes s s' [] Exited (feed s) (opsExecuted s) (wpc s) (rpc s) (received s) ->
    Move env s GoMain s'
| Move_dial id s' :
    wpc s !! id = Some W_Start ->
    Dial env (trace (world s) ++ [EvLog (Info_report_for_duty id)]) (url (globals (world s)))
    = None ->
    Becomes s s'
            [EvLog (Info_report_for_duty id); EvDial id (url (globals (world s)));
             EvSetSocketTimeout id (socketTimeout (globals (world s)))]
            Running (feed s) (opsExecuted s) (<[id:=W_Pull]> (wpc s)) (rpc s) (received s) ->
    Move env s (GoFetch id) s'
| Move_dial_failed id e s' :
    wpc s !! id = Some W_Start ->
    Dial env (trace (world s) ++ [EvLog (Info_report_for_duty id)]) (url (globals (world s)))
    = Some e ->
    Becomes s s'
            [EvLog (Info_report_for_duty id); EvDial id (url (globals (world s)))]
            (Crashed e) (feed s) (opsExecuted s) (wpc s) (rpc s) (received s) ->
    Move env s (GoFetch id) s'
| Move_pull_op id op rest s' :
    wpc s !! id = Some W_Pull ->
    feed s = Some op :: rest ->
    Becomes s s' [EvPull id (Some op)] Running rest (opsExecuted s)
            (<[id:=W_Run op]> (wpc s)) (rpc s) (received s) ->
    Move env s (GoFetch id) s'
| Move_pull_nil id rest s' :
    wpc s !! id = Some W_Pull ->
    feed s = None :: rest ->
    Becomes s s' [EvPull id None] Running rest (opsExecuted s)
            (<[id:=W_Exit]> (wpc s)) (rpc s) (received s) ->
    Move env s (GoFetch id) s'
| Move_pull_closed id s' :
    wpc s !! id = Some W_Pull ->
    feed s = [] ->
    closed s = true ->
    Becomes s s' [EvPull id None] Running [] (opsExecuted s)
            (<[id:=W_Exit]> (wpc s)) (rpc s) (received s) ->
    Move env s (GoFetch id) s'
| Move_run id op s' :
    wpc s !! id = Some (W_Run op) ->
    Becomes s s' (op_events env id op (verbose (globals (world s))) (trace (world s)))
            Running (feed s) (opsExecuted s) (<[id:=W_Add]> (wpc s)) (rpc s) (received s) ->
    Move env s (GoFetch id) s'
| Move_add id s' :
    wpc s !! id = Some W_Add ->
    Becomes s s' [EvAdd id] Running (feed s) (AddInt64 (opsExecuted s) 1)
            (<[id:=W_Pull]> (wpc s)) (rpc s) (received s) ->
    Move env s (GoFetch id) s'
| Move_exit id s' :
    wpc s !! id = Some W_Exit ->
    received s < workers (globals (world s)) ->
    Becomes s s' [EvExit id] Running (feed s) (opsExecuted s)
            (<[id:=W_Bye]> (wpc s)) (rpc s) (AddInt64 (received s) 1) ->
    Move env s (GoFetch id) s'
| Move_bye id s' :
    wpc s !! id = Some W_Bye ->
    Becomes s s' [EvLog (Info_done id); EvClose id] Running (feed s) (opsExecuted s)
            (<[id:=W_Done]> (wpc s)) (rpc s) (received s) ->
    Move env s (GoFetch id) s'
| Move_reporter_start s' :
    rpc s = R_Start ->
    Becomes s s' [] Running (feed s) (opsExecuted s) (wpc s) R_Check (received s) ->
    Move env s GoReporter s'
| Move_check_below s' :
    rpc s = R_Check ->
    opsExecuted s < maxOps (globals (world s)) ->
    Becomes s s' [] Running (feed s) (opsExecuted s) (wpc s) R_Sleep (received s) ->
    Move env s GoReporter s'
| Move_check_reached s' :
    rpc s = R_Check ->
    maxOps (globals (world s)) <= opsExecuted s ->
    Becomes s s' [] Running (feed s) (opsExecuted s) (wpc s) R_Final (received s) ->
    Move env s GoReporter s'
| Move_sleep s' :
    rpc s = R_Sleep ->
    Becomes s s' [EvSleep 5000000000] Running (feed s) (opsExecuted s) (wpc s) R_Report
            (received s) ->
    Move env s GoReporter s'
| Move_report s' :
    rpc s = R_Report ->
    Becomes s s' [EvReport; EvLog (Info_executed (opsExecuted s))] Running (feed s)
            (opsExecuted s) (wpc s) R_Check (received s) ->
    Move env s GoReporter s'
| Move_final s' :
    rpc s = R_Final ->
    Becomes s s' [EvReport; EvLog (Info_executed (opsExecuted s))] Running (feed s)
            (opsExecuted s) (wpc s) R_Done (received s) ->
    Move env s GoReporter s'.

Ltac becomes :=
  constructor;
  cbn [world globals trace status feed closed opsExecuted wpc rpc received log_event with_rpc];
  rewrite ?app_nil_r; try reflexivity; try assumption; try congruence.

Lemma step_Move (env : Env) (g : Goroutine) (s s' : State) :
  step env g s = Some s' -> status s = Running /\ Move env s g s'.
Proof.
  unfold step. destruct (status s) eqn:Hst; try discriminate.
  intros H. split; [reflexivity|]. destruct g as [|id|].
  - unfold step_main in H.
    destruct (Z.ltb_spec (received s) (workers (globals (world s)))) as [Hlt|Hge];
      [discriminate|].
    inversion H; subst s'. apply Move_return; [exact Hge|]. becomes.
  - unfold step_fetch in H. destruct (wpc s !! id) as [pc|] eqn:Hpc; [|discriminate].
    destruct pc.
    + inversion H; subst s'; clear H. unfold local. rewrite fetch_enter_eq.
      destruct (Dial env _ _) as [e|] eqn:Hd.
      * eapply Move_dial_failed; [exact Hpc | exact Hd|]. becomes.
      * eapply Move_dial; [exact Hpc | exact Hd|]. becomes.
    + destruct (feed s) as [|[op|] rest] eqn:Hfeed.
      * destruct (closed s) eqn:Hcl; [|discriminate].
        inversion H; subst s'; clear H.
        eapply Move_pull_closed; [exact Hpc | exact Hfeed | exact Hcl|]. becomes.
      * inversion H; subst s'; clear H.
        eapply Move_pull_op; [exact Hpc | exact Hfeed|]. becomes.
      * inversion H; subst s'; clear H.
        eapply Move_pull_nil; [exact Hpc | exact Hfeed|]. becomes.
    + inversion H; subst s'; clear H. unfold local. rewrite fetch_op_eq.
      eapply Move_run; [exact Hpc|]. becomes.
    + inversion H; subst s'; clear H. eapply Move_add; [exact Hpc|]. becomes.
    + destruct (Z.ltb_spec (received s) (workers (globals (world s)))) as [Hlt|Hge];
        [|discriminate].
      inversion H; subst s'; clear H. eapply Move_exit; [exact Hpc | exact Hlt|]. becomes.
    + inversion H; subst s'; clear H. unfold local. rewrite fetch_leave_eq.
      eapply Move_bye; [exact Hpc|]. becomes.
    + discriminate.
  - unfold step_reporter in H. destruct (rpc s) eqn:Hr.
    + inversion H; subst s'. apply Move_reporter_start; [exact Hr|]. becomes.
    + destruct (Z.ltb_spec (opsExecuted s) (maxOps (globals (world s)))) as [Hlt|Hge];
        inversion H; subst s'.
      * apply Move_check_below; [exact Hr | exact Hlt|]. becomes.
      * apply Move_check_reached; [exact Hr | exact Hge|]. becomes.
    + inversion H; subst s'. apply Move_sleep; [exact Hr|]. becomes.
    + inversion H; subst s'; clear H. unfold local. rewrite report_eq.
      apply Move_report; [exact Hr|]. becomes.
    + inversion H; subst s'; clear H. unfold local. rewrite report_eq.
      apply Move_final; [exact Hr|]. becomes.
    + discriminate.
Qed.

(** ** What start-up leaves in the trace *)

Definition is_startup (e : Event) : bool :=
  match e with
  | EvGOMAXPROCS _ | EvNewLogger _ _ | EvOpenFile _ | EvNewCyclicOpsReader
  | EvSetStartTime _ _ | EvSkipOps _ _ | EvNewDispatcher _ | EvGoFetch _ | EvGoReporter => true
  | _ => false
  end.

Definition startup_only (t : list Event) : Prop := Forall (fun e => is_startup e = true) t.

Lemma startup_only_go_fetch (i n : nat) : startup_only (map EvGoFetch (seq i n)).
Proof.
  unfold startup_only. revert i.
  induction n as [|n IH]; intros i; simpl; constructor; [reflexivity | apply IH].
Qed.

Lemma startup_only_startup_trace (g : Flags) : startup_only (startup_trace g).
Proof.
  unfold startup_trace, startup_only.
  repeat (apply Forall_app; split); try apply startup_only_go_fetch;
    repeat match goal with |- context [if ?b then _ else _] => destruct b end;
    repeat constructor.
Qed.

Lemma main_startup_only (env : Env) (fl : Flags) :
  startup_only (trace (result_world (main_startup env (mkWorld fl [])))).
Proof.
  assert (Hparts : forall g : Flags,
             startup_only ([EvGOMAXPROCS 100; EvNewLogger (stdout g) (stderr g)] ++
                           (if (style g =? "stress")%string then [EvOpenFile (opsFilename g)]
                            else [EvNewCyclicOpsReader; EvOpenFile (opsFilename g)])) /\
             startup_only (if startTime g >? 0
                           then [EvSetStartTime (reader_for g) (startTime g)] else []) /\
             startup_only (if numSkipOps g >? 0
                           then [EvSkipOps (reader_for g) (numSkipOps g)] else [])).
  { intros g. unfold startup_only.
    destruct (style g =? "stress")%string, (startTime g >? 0), (numSkipOps g >? 0);
      repeat constructor. }
  destruct (flags_accepted_or_not fl) as [[Hs Hw] | Hbad].
  - rewrite main_startup_outcome by assumption. unfold startup_outcome. cbv zeta.
    destruct (Hparts (parsed env fl)) as (H0 & H1 & H2).
    destruct (OpenFile env _); [exact H0|].
    destruct (if startTime _ >? 0 then SetStartTime _ _ _ else None).
    { cbn [result_world trace]. apply Forall_app. split; assumption. }
    destruct (if numSkipOps _ >? 0 then SkipOps _ _ _ else None).
    { cbn [result_world trace]. apply Forall_app. split; [|assumption].
      apply Forall_app. split; assumption. }
    apply startup_only_startup_trace.
  - destruct (main_startup_rejected env fl Hbad) as (e & _ & Hm). rewrite Hm.
    repeat constructor.
Qed.

Lemma count_startup_only (p : Event -> bool) (t : list Event) :
  (forall e, is_startup e = true -> p e = false) -> startup_only t -> count p t = O.
Proof.
  intros Hp. induction 1 as [|e t He _ IH]; simpl; [reflexivity|].
  rewrite (Hp e He), IH. reflexivity.
Qed.

Lemma In_startup_only (t : list Event) (e : Event) :
  startup_only t -> In e t -> is_startup e = true.
Proof. intros H Hin. unfold startup_only in H. rewrite List.Forall_forall in H. auto. Qed.

(** ** Reasoning on every state [main] can reach *)

Section Reach.

Variable env : Env.
Variable fl : Flags.
Variable ops : list (option Op).
Variable cl : bool.
Variable P : State -> Prop.

Hypothesis P_crash :
  forall e w,
    main_startup env (mkWorld fl []) = Panicked e w ->
    startup_only (trace w) ->
    P (mkState w (Crashed e) ops cl 0 [] R_Start 0).

Hypothesis P_spawned :
  (style fl = "stress" \/ style fl = "real") ->
  0 < workers fl ->
  P (spawned (mkWorld (parsed env fl) (startup_trace (parsed env fl))) ops cl).

Hypothesis P_step :
  forall g s s',
    Inv ops s -> Inv ops s' ->
    globals (world s) = parsed env fl ->
    closed s = cl ->
    status s = Running ->
    P s ->
    step env g s = Some s' ->
    Move env s g s' ->
    P s'.

Lemma run_reach (sched : list Goroutine) (s : State) :
  Inv ops s -> globals (world s) = parsed env fl -> closed s = cl -> P s ->
  P (run env sched s).
Proof.
  revert s. induction sched as [|g sched IH]; intros s HI Hg Hc HP; simpl; [exact HP|].
  destruct (step env g s) as [s'|] eqn:E; simpl; [|apply IH; assumption].
  pose proof (step_Inv env ops g s s' HI E) as HI'.
  destruct (step_Move env g s s' E) as [Hst HM].
  assert (Hg' : globals (world s') = globals (world s)) by (inversion HM; subst;
    match goal with HB : Becomes _ _ _ _ _ _ _ _ _ |- _ => apply (to_globals _ _ _ _ _ _ _ _ _ HB) end).
  assert (Hc' : closed s' = closed s) by (inversion HM; subst;
    match goal with HB : Becomes _ _ _ _ _ _ _ _ _ |- _ => apply (to_closed _ _ _ _ _ _ _ _ _ HB) end).
  apply IH; [exact HI' | congruence | congruence|].
  apply (P_step g s s'); assumption.
Qed.

Lemma main_reach (sched : list Goroutine) : P (main env fl ops cl sched).
Proof.
  unfold main. pose proof (main_startup_only env fl) as Hso.
  pose proof (main_startup_quiet env fl) as Hq.
  revert Hso Hq.
  case_eq (main_startup env (mkWorld fl [])); [intros d w E | intros e w E];
    cbn [result_world]; intros Hso Hq.
  - destruct (main_startup_Ok env fl d w E) as (Hs & Hw & _ & ->).
    apply run_reach; [apply spawned_Inv; exact Hq | reflexivity | reflexivity|].
    apply P_spawned; assumption.
  - apply P_crash; [exact E | exact Hso].
Qed.

End Reach.

Ltac move_cases HM :=
  inversion HM; subst;
  match goal with
  | HB : Becomes _ _ _ _ _ _ _ _ _ |- _ =>
    let Bg := fresh "Bg" in let Bt := fresh "Bt" in let Bs := fresh "Bs" in
    let Bf := fresh "Bf" in let Bc := fresh "Bc" in let Bx := fresh "Bx" in
    let Bw := fresh "Bw" in let Br := fresh "Br" in let Bn := fresh "Bn" in
    destruct HB as [Bg Bt Bs Bf Bc Bx Bw Br Bn]
  end.

Ltac count_startup Hso :=
  repeat match goal with
         | |- context [count ?p ?t] =>
           match type of Hso with
           | startup_only t =>
             rewrite (count_startup_only p t ltac:(intros [] ?; try discriminate; reflexivity) Hso)
           end
         end.

(** ** Attempts, retries and refreshes *)

Definition is_execute (e : Event) : bool :=
  match e with EvExecute _ _ _ => true | _ => false end.

Definition is_retry_notice (e : Event) : bool :=
  match e with EvLog (Error_retrying _) => true | _ => false end.

(** A worker that has handled an op it has not counted yet. *)
Definition handled (pc : WorkerPc) : nat :=
  match pc with W_Add => 1 | _ => 0 end.

Lemma op_events_attempts (env : Env) (id : nat) (op : Op) (vb : bool) (h : list Event) :
  let evs := op_events env id op vb h in
  count is_execute evs = S (count is_refresh evs) /\
  count is_retry_notice evs = count is_refresh evs /\
  (count is_refresh evs <= 1)%nat /\
  count (is_sync Add) evs = O.
Proof.
  unfold op_events. cbv zeta.
  destruct (Execute env h id op) as [e|];
    [destruct (recognized_permanent e); [|destruct (Execute env _ id op)]|];
    destruct vb; cbn; lia.
Qed.

(** The attempts and refreshes of a run against the ops handled. *)
Record Attempts (s : State) : Prop := mkAttempts {
  att_execute :
    count is_execute (trace (world s)) =
    (count (is_sync Add) (trace (world s)) + sum_list (handled <$> wpc s) +
     count is_refresh (trace (world s)))%nat;
  att_notice :
    count is_retry_notice (trace (world s)) = count is_refresh (trace (world s));
  att_bound :
    (count is_refresh (trace (world s)) <=
     count (is_sync Add) (trace (world s)) + sum_list (handled <$> wpc s))%nat
}.

Lemma main_Attempts (env : Env) (fl : Flags) (ops : list (option Op)) (cl : bool)
      (sched : list Goroutine) :
  Attempts (main env fl ops cl sched).
Proof.
  apply main_reach.
  - intros e w _ Hso. constructor; cbn [world trace wpc]; count_startup Hso; csimpl; lia.
  - intros _ _. pose proof (startup_only_startup_trace (parsed env fl)) as Hso.
    constructor; cbn [spawned world trace wpc globals]; count_startup Hso;
      rewrite ?sum_list_replicate; cbn [handled]; lia.
  - intros g s s' _ _ _ _ _ [A1 A2 A3] _ HM.
    move_cases HM; constructor; rewrite ?Bt, ?Bw, ?count_app;
      try match goal with
          | |- context [op_events ?e ?i ?o ?v ?h] =>
            destruct (op_events_attempts e i o v h) as (O1 & O2 & O3 & O4);
            cbv zeta in O1, O2, O3, O4; rewrite ?O1, ?O2, ?O4
          end;
      try match goal with
          | Hpc : wpc s !! ?i = Some ?x |- context [<[?i:=?y]> (wpc s)] =>
            pose proof (sum_list_insert handled _ _ _ y Hpc) as Hsum; cbn [handled] in Hsum
          end;
      cbn [count is_execute is_refresh is_retry_notice is_sync sync_of Sync_eqb]; lia.
Qed.


(** ** A worker executes what it pulled *)

Lemma In_op_events_execute (env : Env) (id : nat) (op : Op) (vb : bool) (h : list Event)
      (i : nat) (o : Op) (r : option error) :
  In (EvExecute i o r) (op_events env id op vb h) -> i = id /\ o = op.
Proof.
  unfold op_events, verbose_log. cbv zeta.
  destruct (Execute env h id op) as [e|];
    [destruct (recognized_permanent e); [|destruct (Execute env _ id op) as [e2|]]|];
    destruct vb; simpl; intros H;
    repeat match goal with
           | H : _ \/ _ |- _ => destruct H
           | H : False |- _ => contradiction
           | H : _ = EvExecute _ _ _ |- _ => inversion H; clear H; subst
           end; auto.
Qed.

Lemma In_pulled (t : list Event) (id : nat) (op : Op) :
  In (EvPull id (Some op)) t -> In op (pulled t).
Proof.
  induction t as [|e t IH]; simpl; [tauto|].
  intros [-> | H]; [left; reflexivity|].
  destruct e as [| | | | | | | | | | | |i [o|]| | | | | | |]; simpl; auto.
Qed.

Lemma In_feed_ops (l : list (option Op)) (op : Op) : In op (feed_ops l) -> In (Some op) l.
Proof.
  unfold feed_ops. induction l as [|[o|] l IH]; csimpl; [tauto| |]; intros H.
  - destruct H as [-> | H]; [left; reflexivity | right; auto].
  - right; auto.
Qed.

Record PulledFirst (s : State) : Prop := mkPulledFirst {
  executed_was_pulled :
    forall id op r, In (EvExecute id op r) (trace (world s)) ->
                    In (EvPull id (Some op)) (trace (world s));
  held_was_pulled :
    forall id op, wpc s !! id = Some (W_Run op) -> In (EvPull id (Some op)) (trace (world s))
}.

Lemma main_PulledFirst (env : Env) (fl : Flags) (ops : list (option Op)) (cl : bool)
      (sched : list Goroutine) :
  PulledFirst (main env fl ops cl sched).
Proof.
  apply main_reach.
  - intros e w _ Hso. constructor; cbn [world trace wpc].
    + intros id op r Hin. apply (In_startup_only _ _ Hso) in Hin. discriminate.
    + intros id op Hi. discriminate.
  - intros _ _. pose proof (startup_only_startup_trace (parsed env fl)) as Hso.
    constructor; cbn [spawned world trace wpc].
    + intros id op r Hin. apply (In_startup_only _ _ Hso) in Hin. discriminate.
    + intros id op Hi. apply lookup_replicate in Hi. destruct Hi as [Hi _]. discriminate.
  - intros g s s' _ _ _ _ _ [P1 P2] _ HM.
    move_cases HM; constructor; rewrite ?Bt, ?Bw.
    all: try (intros i o r Hin; apply in_or_app; apply in_app_or in Hin;
              destruct Hin as [Hin|Hin]; [left; eauto|];
              try (apply In_op_events_execute in Hin; destruct Hin as [-> ->];
                   left; eauto);
              simpl in Hin; intuition discriminate).
    all: try (intros i o Hi; apply in_or_app; left; eauto; fail).
    all: intros i o Hi; apply in_or_app;
      destruct (Nat.eq_dec i id) as [-> | Hne];
      [ rewrite list_lookup_insert_eq in Hi by (eapply lookup_lt_Some; eassumption);
        inversion Hi; subst; right; left; reflexivity
      | rewrite list_lookup_insert_ne in Hi by congruence; left; eauto ].
Qed.

(** X5. In every state [main] can reach, an op a worker has sent to
    the executor is an op that worker pulled from the queue, which the
    dispatcher had put there: no worker executes an op of its own
    making or one another worker pulled. *)
Theorem a_worker_executes_what_it_pulled (env : Env) (fl : Flags) (ops : list (option Op))
        (cl : bool) (sched : list Goroutine) (id : nat) (op : Op) (r : option error) :
  let t := trace (world (main env fl ops cl sched)) in
  In (EvExecute id op r) t ->
  In (EvPull id (Some op)) t /\ In (Some op) ops.
Proof.
  intros t Hin. destruct (main_PulledFirst env fl ops cl sched) as [P1 _].
  specialize (P1 id op r Hin). split; [exact P1|].
  pose proof (inv_feed _ _ (main_Inv env fl ops cl sched)) as Hf.
  apply In_pulled in P1.
  assert (Hop : In op (feed_ops ops)) by (rewrite <- Hf; apply in_or_app; left; exact P1).
  apply In_feed_ops. exact Hop.
Qed.

Lemma a_worker_executes_what_it_pulled_witness :
  In (EvPull 0 (Some an_op))
     (trace (world (main env_flaky stress_flags three_ops false busy_schedule))) /\
  In (Some an_op) three_ops.
Proof.
  apply (a_worker_executes_what_it_pulled env_flaky stress_flags three_ops false busy_schedule
           0 an_op (Some socket_error)).
  vm_compute. repeat first [left; reflexivity | right].
Defined.

(** ** What can take the process down *)






(** ** Sessions *)

Definition is_op_event (e : Event) : bool :=
  match e with
  | EvExecute _ _ _ | EvRefresh _ | EvLog _ => true
  | _ => false
  end.

Lemma op_events_only (env : Env) (id : nat) (op : Op) (vb : bool) (h : list Event) :
  Forall (fun e => is_op_event e = true) (op_events env id op vb h).
Proof.
  unfold op_events, verbose_log. cbv zeta.
  destruct (Execute env h id op) as [e|];
    [destruct (recognized_permanent e); [|destruct (Execute env _ id op) as [e2|]]|];
    destruct vb; repeat constructor.
Qed.

Lemma count_op_events (p : Event -> bool) (env : Env) (id : nat) (op : Op) (vb : bool)
      (h : list Event) :
  (forall e, is_op_event e = true -> p e = false) ->
  count p (op_events env id op vb h) = O.
Proof.
  intros Hp. pose proof (op_events_only env id op vb h) as H.
  induction H as [|e t He _ IH]; simpl; [reflexivity|].
  rewrite (Hp e He), IH. reflexivity.
Qed.

Lemma In_op_events (env : Env) (id : nat) (op : Op) (vb : bool) (h : list Event) (e : Event) :
  In e (op_events env id op vb h) -> is_op_event e = true.
Proof.
  intros Hin. pose proof (op_events_only env id op vb h) as H.
  rewrite List.Forall_forall in H. auto.
Qed.

Definition is_dial_of (id : nat) (e : Event) : bool :=
  match e with EvDial i _ => Nat.eqb i id | _ => false end.
Definition is_timeout_of (id : nat) (e : Event) : bool :=
  match e with EvSetSocketTimeout i _ => Nat.eqb i id | _ => false end.
Definition is_close_of (id : nat) (e : Event) : bool :=
  match e with EvClose i => Nat.eqb i id | _ => false end.

(** A worker past line 158, and one that has returned. *)
Definition dialled (pc : WorkerPc) : nat :=
  match pc with W_Start => 0 | _ => 1 end.
Definition returned (pc : WorkerPc) : nat :=
  match pc with W_Done => 1 | _ => 0 end.

Record Sessions (s : State) : Prop := mkSessions {
  ses_worker :
    forall id pc, wpc s !! id = Some pc ->
      count (is_timeout_of id) (trace (world s)) = dialled pc /\
      count (is_close_of id) (trace (world s)) = returned pc /\
      match status s with
      | Crashed _ => (dialled pc <= count (is_dial_of id) (trace (world s)) <= 1)%nat
      | _ => count (is_dial_of id) (trace (world s)) = dialled pc
      end;
  ses_timeout :
    forall id ns, In (EvSetSocketTimeout id ns) (trace (world s)) ->
                  ns = socketTimeout (globals (world s));
  ses_url :
    forall id u, In (EvDial id u) (trace (world s)) -> u = url (globals (world s))
}.

Ltac session_counts :=
  rewrite ?count_app;
  rewrite ?count_op_events by (intros [] ?; try discriminate; reflexivity);
  cbn [count is_dial_of is_timeout_of is_close_of];
  rewrite ?Nat.eqb_refl;
  repeat match goal with
         | Hne : ?i <> ?j |- context [Nat.eqb ?j ?i] =>
           destruct (Nat.eqb_spec j i); [congruence|]
         end;
  cbn [dialled returned].

Lemma main_Sessions (env : Env) (fl : Flags) (ops : list (option Op)) (cl : bool)
      (sched : list Goroutine) :
  Sessions (main env fl ops cl sched).
Proof.
  apply main_reach.
  - intros e w _ Hso. constructor; cbn [world trace wpc status].
    + intros id pc Hi. discriminate.
    + intros id ns Hin. apply (In_startup_only _ _ Hso) in Hin. discriminate.
    + intros id u Hin. apply (In_startup_only _ _ Hso) in Hin. discriminate.
  - intros _ _. pose proof (startup_only_startup_trace (parsed env fl)) as Hso.
    constructor; cbn [spawned world trace wpc status].
    + intros id pc Hi. apply lookup_replicate in Hi. destruct Hi as [-> _].
      count_startup Hso. auto.
    + intros id ns Hin. apply (In_startup_only _ _ Hso) in Hin. discriminate.
    + intros id u Hin. apply (In_startup_only _ _ Hso) in Hin. discriminate.
  - intros g s s' _ _ _ _ Hst [W T U] _ HM.
    move_cases HM; constructor; rewrite ?Bt, ?Bw, ?Bs, ?Bg.
    all: try (intros i x Hin; apply in_app_or in Hin; destruct Hin as [Hin|Hin]; [eauto|];
              try (apply In_op_events in Hin; discriminate Hin);
              simpl in Hin;
              repeat match goal with
                     | H : _ \/ _ |- _ => destruct H
                     | H : False |- _ => contradiction
                     | H : _ = EvSetSocketTimeout _ _ |- _ => inversion H; clear H; subst
                     | H : _ = EvDial _ _ |- _ => inversion H; clear H; subst
                     end; reflexivity).
    all: intros i pc Hi.
    all: try (destruct (W i pc Hi) as (W1 & W2 & W3); rewrite Hst in W3;
              session_counts; rewrite ?Nat.add_0_r; auto; fail).
    all: try (destruct (Nat.eq_dec i id) as [-> | Hne];
              [ rewrite list_lookup_insert_eq in Hi by (eapply lookup_lt_Some; eassumption);
                inversion Hi; subst pc;
                match goal with
                | Hpc : wpc _ !! _ = Some _ |- _ => destruct (W _ _ Hpc) as (W1 & W2 & W3)
                end
              | rewrite list_lookup_insert_ne in Hi by congruence;
                destruct (W i pc Hi) as (W1 & W2 & W3) ];
              rewrite Hst in W3; session_counts; cbn [dialled returned] in W1, W2, W3;
              repeat split; lia).
    (* the dial that fails *)
    destruct (W i pc Hi) as (W1 & W2 & W3). rewrite Hst in W3.
    destruct (Nat.eq_dec i id) as [-> | Hne].
    + match goal with
      | Hpc : wpc _ !! _ = Some W_Start |- _ => rewrite Hpc in Hi; inversion Hi; subst pc
      end.
      session_counts. cbn [dialled returned] in W1, W2, W3. repeat split; lia.
    + session_counts. destruct pc; cbn [dialled returned] in *; repeat split; lia.
Qed.

Lemma socketTimeout_parsed (env : Env) (g : Flags) :
  socketTimeout (parsed env g) = socketTimeout g.
Proof. unfold parsed. destruct (maxOps g =? 0); reflexivity. Qed.

Lemma verbose_parsed (env : Env) (g : Flags) : verbose (parsed env g) = verbose g.
Proof. unfold parsed. destruct (maxOps g =? 0); reflexivity. Qed.

(** The globals of a run are the flags as given, or as [parseFlags]
    left them. *)
Lemma globals_after_startup (env : Env) (fl : Flags) :
  globals (result_world (main_startup env (mkWorld fl []))) = fl \/
  globals (result_world (main_startup env (mkWorld fl []))) = parsed env fl.
Proof.
  destruct (flags_accepted_or_not fl) as [[Hs Hw] | Hbad].
  - right. rewrite main_startup_outcome by assumption. unfold startup_outcome. cbv zeta.
    destruct (OpenFile env _); [reflexivity|].
    destruct (if startTime _ >? 0 then _ else None); [reflexivity|].
    destruct (if numSkipOps _ >? 0 then _ else None); reflexivity.
  - left. destruct (main_startup_rejected env fl Hbad) as (e & _ & Hm). rewrite Hm. reflexivity.
Qed.

Lemma main_globals (env : Env) (fl : Flags) (ops : list (option Op)) (cl : bool)
      (sched : list Goroutine) :
  globals (world (main env fl ops cl sched)) = fl \/
  globals (world (main env fl ops cl sched)) = parsed env fl.
Proof.
  apply main_reach.
  - intros e w E _. pose proof (globals_after_startup env fl) as H. rewrite E in H. exact H.
  - intros _ _. right. reflexivity.
  - intros g s s' _ _ Hg _ _ _ _ HM. right. move_cases HM; congruence.
Qed.



(** ** The reporter *)

Definition is_sleep (e : Event) : bool :=
  match e with EvSleep _ => true | _ => false end.

Definition is_executed_log (e : Event) : bool :=
  match e with EvLog (Info_executed _) => true | _ => false end.

(** The reporter between its sleep and its report, and at its end. *)
Definition about_to_report (pc : ReporterPc) : nat :=
  match pc with R_Report => 1 | _ => 0 end.
Definition reporter_done (pc : ReporterPc) : nat :=
  match pc with R_Done => 1 | _ => 0 end.

Record Reports (s : State) : Prop := mkReports {
  rep_count :
    (count is_report (trace (world s)) + about_to_report (rpc s) =
     count is_sleep (trace (world s)) + reporter_done (rpc s))%nat;
  rep_sleep :
    forall ns, In (EvSleep ns) (trace (world s)) -> ns = 5 * 1000000000;
  rep_log :
    count is_executed_log (trace (world s)) = count is_report (trace (world s))
}.

Lemma op_events_no_executed_log (env : Env) (id : nat) (op : Op) (vb : bool)
      (h : list Event) :
  count is_executed_log (op_events env id op vb h) = O.
Proof.
  unfold op_events, verbose_log. cbv zeta.
  destruct (Execute env h id op) as [e|];
    [destruct (recognized_permanent e); [|destruct (Execute env _ id op) as [e2|]]|];
    destruct vb; reflexivity.
Qed.

Lemma main_Reports (env : Env) (fl : Flags) (ops : list (option Op)) (cl : bool)
      (sched : list Goroutine) :
  Reports (main env fl ops cl sched).
Proof.
  apply main_reach.
  - intros e w _ Hso. constructor; cbn [world trace rpc].
    + count_startup Hso. reflexivity.
    + intros ns Hin. apply (In_startup_only _ _ Hso) in Hin. discriminate.
    + count_startup Hso. reflexivity.
  - intros _ _. pose proof (startup_only_startup_trace (parsed env fl)) as Hso.
    constructor; cbn [spawned world trace rpc].
    + count_startup Hso. reflexivity.
    + intros ns Hin. apply (In_startup_only _ _ Hso) in Hin. discriminate.
    + count_startup Hso. reflexivity.
  - intros g s s' _ _ _ _ _ [R1 R2 R3] _ HM.
    move_cases HM; constructor; rewrite ?Bt, ?Br.
    all: try (intros ns Hin; apply in_app_or in Hin; destruct Hin as [Hin|Hin]; [eauto|];
              try (apply In_op_events in Hin; discriminate Hin);
              simpl in Hin;
              repeat match goal with
                     | H : _ \/ _ |- _ => destruct H
                     | H : False |- _ => contradiction
                     | H : _ = EvSleep _ |- _ => inversion H; clear H; subst
                     end; reflexivity).
    all: rewrite ?count_app; rewrite ?op_events_no_executed_log;
      rewrite ?count_op_events by (intros [] ?; try discriminate; reflexivity);
      try match goal with Hr : rpc _ = _ |- _ => rewrite Hr in R1 end;
      cbn [count is_report is_sleep is_executed_log about_to_report reporter_done] in *; lia.
Qed.


(** With a queue of fewer than 2^63 ops the counter does not wrap: it
    is the number of increments, at most the number of ops queued. *)
Lemma counter_exact (ops : list (option Op)) (s : State) :
  Inv ops s ->
  Z.of_nat (length (feed_ops ops)) < 2 ^ 63 ->
  opsExecuted s = Z.of_nat (count (is_sync Add) (trace (world s))) /\
  (count (is_sync Add) (trace (world s)) <= length (feed_ops ops))%nat.
Proof.
  intros [Hc Hp _ _ Hf _ _] Hb.
  assert (Hle : (count (is_sync Add) (trace (world s)) <= length (feed_ops ops))%nat).
  { rewrite <- Hf, length_app, length_pulled, Hp. lia. }
  split; [|exact Hle]. rewrite Hc. apply wrap64_small. lia.
Qed.

(** The op limit in force: [maxOps] as [parseFlags] leaves it. *)
Definition limit (fl : Flags) : Z := if maxOps fl =? 0 then 4294967295 else maxOps fl.

Lemma maxOps_parsed (env : Env) (fl : Flags) : maxOps (parsed env fl) = limit fl.
Proof. unfold parsed, limit. destruct (maxOps fl =? 0); reflexivity. Qed.

Lemma main_final_report (env : Env) (fl : Flags) (ops : list (option Op)) (cl : bool)
      (sched : list Goroutine) :
  Z.of_nat (length (feed_ops ops)) < 2 ^ 63 ->
  let s := main env fl ops cl sched in
  rpc s = R_Final \/ rpc s = R_Done -> limit fl <= opsExecuted s.
Proof.
  intros Hb. cbv zeta. apply main_reach.
  - intros e w _ _ [H|H]; discriminate H.
  - intros _ _ [H|H]; discriminate H.
  - intros g s s' HI HI' Hg _ _ HP _ HM Hr.
    destruct (counter_exact ops s HI Hb) as [C1 _].
    destruct (counter_exact ops s' HI' Hb) as [C1' _].
    assert (Hmono : opsExecuted s <= opsExecuted s').
    { move_cases HM; rewrite C1, C1', Bt, count_app; lia. }
    move_cases HM; rewrite Br in Hr;
      try (destruct Hr as [Hr|Hr]; discriminate Hr);
      try (specialize (HP Hr); lia).
    + match goal with
      | H : maxOps _ <= _ |- _ => rewrite Hg, maxOps_parsed in H; lia
      end.
    + assert (limit fl <= opsExecuted s) by (apply HP; left; assumption). lia.
Qed.

(** X9. The final report.  With fewer than 2^63 ops queued, the
    counter never exceeds the number of ops queued, and the reporter
    leaves its loop for the final report only once the counter has
    reached the op limit ([maxOps], or 4294967295 for [maxOps = 0]).
    So when fewer ops are queued than the limit, there is no final
    report under any schedule: the reporter never leaves its loop, and
    every report made is a periodic one. *)
Theorem final_report_needs_maxOps_ops (env : Env) (fl : Flags) (ops : list (option Op))
        (cl : bool) (sched : list Goroutine) :
  Z.of_nat (length (feed_ops ops)) < 2 ^ 63 ->
  let s := main env fl ops cl sched in
  let t := trace (world s) in
  0 <= opsExecuted s <= Z.of_nat (length (feed_ops ops)) /\
  (rpc s = R_Final \/ rpc s = R_Done -> limit fl <= opsExecuted s) /\
  (Z.of_nat (length (feed_ops ops)) < limit fl ->
   rpc s <> R_Final /\ rpc s <> R_Done /\
   (count is_report t + about_to_report (rpc s) = count is_sleep t)%nat).
Proof.
  intros Hb s t.
  destruct (counter_exact ops s (main_Inv env fl ops cl sched) Hb) as [C1 C2].
  pose proof (main_final_report env fl ops cl sched Hb) as HF. cbv zeta in HF. fold s in HF.
  split; [lia|]. split; [exact HF|].
  intros Hshort.
  assert (Hno : ~ (rpc s = R_Final \/ rpc s = R_Done)) by (intros H; specialize (HF H); lia).
  split; [tauto|]. split; [tauto|].
  pose proof (rep_count _ (main_Reports env fl ops cl sched)) as R1. fold s in R1. fold t in R1.
  destruct (rpc s); cbn [about_to_report reporter_done] in *; try lia; tauto.
Qed.

Lemma final_report_needs_maxOps_ops_witness :
  (let s := main env_healthy one_op_flags [Some an_op; None] false prompt_reporter_schedule in
   limit one_op_flags <= opsExecuted s) /\
  (let s := main env_healthy stress_flags three_ops false
                 (GoReporter :: GoReporter :: GoReporter :: sequential_schedule 2 3) in
   let t := trace (world s) in
   rpc s <> R_Final /\ rpc s <> R_Done /\
   (count is_report t + about_to_report (rpc s) = count is_sleep t)%nat).
Proof.
  split.
  - apply (proj1 (proj2 (final_report_needs_maxOps_ops env_healthy one_op_flags
                           [Some an_op; None] false prompt_reporter_schedule eq_refl))).
    right. vm_compute. reflexivity.
  - exact (proj2 (proj2 (final_report_needs_maxOps_ops env_healthy stress_flags three_ops false
                           (GoReporter :: GoReporter :: GoReporter :: sequential_schedule 2 3)
                           eq_refl)) eq_refl).
Defined.

Lemma main_never_sleeps (env : Env) (fl : Flags) (ops : list (option Op)) (cl : bool)
      (sched : list Goroutine) :
  maxOps fl < 0 ->
  Z.of_nat (length (feed_ops ops)) < 2 ^ 63 ->
  let s := main env fl ops cl sched in
  rpc s <> R_Sleep /\ rpc s <> R_Report /\ count is_sleep (trace (world s)) = O.
Proof.
  intros Hneg Hb. cbv zeta. apply main_reach.
  - intros e w _ Hso. cbn [rpc world trace]. count_startup Hso.
    repeat split; discriminate.
  - intros _ _. pose proof (startup_only_startup_trace (parsed env fl)) as Hso.
    cbn [spawned rpc world trace]. count_startup Hso. repeat split; discriminate.
  - intros g s s' HI _ Hg _ _ (P1 & P2 & P3) _ HM.
    destruct (counter_exact ops s HI Hb) as [C1 _].
    move_cases HM; rewrite Br, Bt, count_app, P3;
      rewrite ?count_op_events by (intros [] ?; try discriminate; reflexivity);
      try (repeat split; solve [assumption | discriminate | reflexivity]).
    + exfalso.
      match goal with
      | H : opsExecuted _ < maxOps _ |- _ =>
        rewrite Hg, maxOps_parsed in H; unfold limit in H;
        destruct (Z.eqb_spec (maxOps fl) 0); lia
      end.
    + contradiction.
Qed.

(** X10. [parseFlags] does not look at the sign of [maxOps]: a
    negative value is kept as it is.  The reporter's loop then never
    runs: with fewer than 2^63 ops queued, no run has a sleep or a
    periodic report, and the only report is the final one, made once
    the reporter is done. *)
Theorem negative_maxOps_means_no_periodic_report (env : Env) (fl : Flags)
        (ops : list (option Op)) (cl : bool) (sched : list Goroutine) :
  maxOps fl < 0 ->
  Z.of_nat (length (feed_ops ops)) < 2 ^ 63 ->
  let s := main env fl ops cl sched in
  let t := trace (world s) in
  maxOps (parsed env fl) = maxOps fl /\
  count is_sleep t = O /\
  count is_report t = reporter_done (rpc s).
Proof.
  intros Hneg Hb s t.
  destruct (main_never_sleeps env fl ops cl sched Hneg Hb) as (P1 & P2 & P3).
  fold s in P1, P2, P3. fold t in P3.
  pose proof (rep_count _ (main_Reports env fl ops cl sched)) as R1. fold s in R1. fold t in R1.
  split; [|split; [exact P3|]].
  - rewrite maxOps_parsed. unfold limit. destruct (Z.eqb_spec (maxOps fl) 0); [lia | reflexivity].
  - rewrite P3 in R1. destruct (rpc s); cbn [about_to_report reporter_done] in *; lia.
Qed.

Definition negative_limit_flags : Flags :=
  mkFlags (-1) 0 "ops.json" DEFAULT_MGO_SOCKET_TIMEOUT 0 "stress" "localhost" false 1 "" "" None.

Lemma negative_maxOps_means_no_periodic_report_witness :
  let s := main env_healthy negative_limit_flags [Some an_op; None] false
                prompt_reporter_schedule in
  let t := trace (world s) in
  maxOps (parsed env_healthy negative_limit_flags) = maxOps negative_limit_flags /\
  count is_sleep t = O /\
  count is_report t = reporter_done (rpc s).
Proof.
  exact (negative_maxOps_means_no_periodic_report env_healthy negative_limit_flags
           [Some an_op; None] false prompt_reporter_schedule eq_refl eq_refl).
Defined.

(** ** The queue *)

(** What the workers received from [opsChan], in order. *)
Fixpoint pull_values (t : list Event) : list (option Op) :=
  match t with
  | [] => []
  | EvPull _ v :: t' => v :: pull_values t'
  | _ :: t' => pull_values t'
  end.

Definition is_pull (e : Event) : bool :=
  match e with EvPull _ _ => true | _ => false end.

(** The nil sentinels in a stretch of the queue. *)
Fixpoint sentinels (l : list (option Op)) : nat :=
  match l with
  | [] => O
  | None :: l' => S (sentinels l')
  | Some _ :: l' => sentinels l'
  end.

Lemma pull_values_app (t1 t2 : list Event) :
  pull_values (t1 ++ t2) = pull_values t1 ++ pull_values t2.
Proof.
  induction t1 as [|e t1 IH]; simpl; [reflexivity|].
  destruct e; simpl; rewrite ?IH; reflexivity.
Qed.

Lemma pull_values_none (t : list Event) :
  Forall (fun e => is_pull e = false) t -> pull_values t = [].
Proof.
  induction 1 as [|e t He _ IH]; simpl; [reflexivity|].
  destruct e; try discriminate He; exact IH.
Qed.

Lemma pull_values_startup_only (t : list Event) : startup_only t -> pull_values t = [].
Proof.
  intros H. apply pull_values_none. eapply Forall_impl; [exact H|].
  intros [] ?; try discriminate; reflexivity.
Qed.

Lemma pull_values_op_events (env : Env) (id : nat) (op : Op) (vb : bool) (h : list Event) :
  pull_values (op_events env id op vb h) = [].
Proof.
  apply pull_values_none. eapply Forall_impl; [apply op_events_only|].
  intros [] ?; try discriminate; reflexivity.
Qed.

Lemma sentinels_app (a b : list (option Op)) :
  sentinels (a ++ b) = (sentinels a + sentinels b)%nat.
Proof. induction a as [|[o|] a IH]; simpl; rewrite ?IH; reflexivity. Qed.

Lemma sentinels_replicate (k : nat) : sentinels (replicate k None) = k.
Proof. induction k as [|k IH]; simpl; rewrite ?IH; reflexivity. Qed.

Lemma sentinels_map_Some (l : list Op) : sentinels (map Some l) = O.
Proof. induction l as [|o l IH]; simpl; auto. Qed.

Lemma sentinels_pull_values (t : list Event) :
  sentinels (pull_values t) = count (is_sync PullNil) t.
Proof.
  induction t as [|e t IH]; simpl; [reflexivity|].
  destruct e as [| | | | | | | | | | | |id [op|]| | | | | | |]; simpl; rewrite ?IH; reflexivity.
Qed.

Lemma feed_ops_pull_values (t : list Event) : feed_ops (pull_values t) = pulled t.
Proof.
  unfold feed_ops. induction t as [|e t IH]; simpl; [reflexivity|].
  destruct e as [| | | | | | | | | | | |id [op|]| | | | | | |]; csimpl; rewrite ?IH; reflexivity.
Qed.

(** In a queue that holds ops and then only sentinels, whatever was
    taken up to a sentinel includes all the ops. *)
Lemma all_ops_before_a_sentinel (ops : list Op) :
  forall (pre rest : list (option Op)) (j : nat),
    pre ++ rest = map Some ops ++ replicate j None ->
    (1 <= sentinels pre)%nat ->
    feed_ops pre = ops.
Proof.
  unfold feed_ops. induction ops as [|o ops IH]; intros pre rest j E Hs.
  - simpl in E. clear Hs. revert rest j E.
    induction pre as [|x pre IHpre]; intros rest j E; [reflexivity|].
    destruct j as [|j]; [discriminate E|]. simpl in E. inversion E; subst x.
    csimpl. eapply IHpre. eassumption.
  - destruct pre as [|x pre]; [simpl in Hs; lia|].
    simpl in E. inversion E; subst x. simpl in Hs. csimpl. f_equal.
    eapply IH; eassumption.
Qed.

(** The values received and those still queued are the queue as the
    dispatcher filled it, followed by the nils received from the closed
    channel. *)
Definition Queue (ops : list (option Op)) (s : State) : Prop :=
  exists k : nat,
    pull_values (trace (world s)) ++ feed s = ops ++ replicate k None /\
    (k <> O -> closed s = true /\ feed s = []).

Lemma main_Queue (env : Env) (fl : Flags) (ops : list (option Op)) (cl : bool)
      (sched : list Goroutine) :
  Queue ops (main env fl ops cl sched).
Proof.
  apply main_reach.
  - intros e w _ Hso. exists O. cbn [world trace feed closed].
    rewrite (pull_values_startup_only _ Hso), app_nil_r. split; [reflexivity | congruence].
  - intros _ _. exists O. cbn [spawned world trace feed closed].
    rewrite (pull_values_startup_only _ (startup_only_startup_trace _)), app_nil_r.
    split; [reflexivity | congruence].
  - intros g s s' _ _ _ _ _ (k & Q1 & Q2) _ HM.
    move_cases HM; unfold Queue; rewrite Bt, Bf, Bc, pull_values_app;
      rewrite ?pull_values_op_events; cbn [pull_values]; rewrite ?app_nil_r;
      try (exists k; split; assumption).
    + exists k. match goal with Hf : feed s = _ |- _ => rewrite Hf in Q1, Q2 end.
      rewrite <- app_assoc. split; [exact Q1|].
      intros Hk. destruct (Q2 Hk) as [_ Hnil]. discriminate Hnil.
    + exists k. match goal with Hf : feed s = _ |- _ => rewrite Hf in Q1, Q2 end.
      rewrite <- app_assoc. split; [exact Q1|].
      intros Hk. destruct (Q2 Hk) as [_ Hnil]. discriminate Hnil.
    + exists (S k). match goal with Hf : feed s = _ |- _ => rewrite Hf in Q1 end.
      rewrite app_nil_r in Q1. rewrite Q1, replicate_S_end, app_assoc.
      split; [reflexivity|]. intros _. split; [assumption | reflexivity].
Qed.

Lemma main_closed (env : Env) (fl : Flags) (ops : list (option Op)) (cl : bool)
      (sched : list Goroutine) :
  closed (main env fl ops cl sched) = cl.
Proof.
  apply main_reach.
  - reflexivity.
  - reflexivity.
  - intros g s s' _ _ _ Hc _ _ _ HM. move_cases HM; congruence.
Qed.

(** X11. The queue is consumed in order.  In every state [main] can
    reach, the values the workers received from [opsChan], in the order
    they received them, followed by what is still queued, are the queue
    as the dispatcher filled it, followed by some nils; and nils beyond
    the queue's own are only received from a closed and emptied channel.
    No value is lost, duplicated or overtaken. *)
Theorem queue_is_consumed_in_order (env : Env) (fl : Flags) (ops : list (option Op)) (cl : bool)
        (sched : list Goroutine) :
  let s := main env fl ops cl sched in
  exists k : nat,
    pull_values (trace (world s)) ++ feed s = ops ++ replicate k None /\
    (k <> O -> cl = true /\ feed s = []).
Proof.
  intros s. destruct (main_Queue env fl ops cl sched) as (k & Q1 & Q2). fold s in Q1, Q2.
  exists k. split; [exact Q1|]. intros Hk. destruct (Q2 Hk) as [Hc Hf]. split; [|exact Hf].
  rewrite <- Hc. symmetry. apply main_closed.
Qed.

(** ** When [main] returns *)

Lemma sum_list_pointwise (f g : WorkerPc -> nat) (l : list WorkerPc) :
  (forall x, (f x <= g x)%nat) -> (sum_list (f <$> l) <= sum_list (g <$> l))%nat.
Proof.
  intros H. induction l as [|a l IH]; csimpl; [lia|]. specialize (H a). lia.
Qed.

Lemma sum_list_none (f : WorkerPc -> nat) (l : list WorkerPc) :
  (forall i x, l !! i = Some x -> f x = O) -> sum_list (f <$> l) = O.
Proof.
  induction l as [|a l IH]; intros H; csimpl; [reflexivity|].
  rewrite (H O a eq_refl), IH; [reflexivity|].
  intros i x Hi. apply (H (S i) x Hi).
Qed.

(** Once [main] has returned, every worker has pulled a sentinel and
    handed over its completion signal. *)
Lemma exited_all_signalled (env : Env) (fl : Flags) (ops : list (option Op)) (cl : bool)
      (sched : list Goroutine) :
  workers fl < 2 ^ 63 ->
  let s := main env fl ops cl sched in
  status s = Exited ->
  0 < workers fl /\
  (Z.to_nat (workers fl) <= count (is_sync PullNil) (trace (world s)))%nat /\
  forall id pc, wpc s !! id = Some pc -> signalled pc = 1%nat.
Proof.
  intros HN s Hex.
  pose proof (main_Inv env fl ops cl sched) as [Hc Hp Hn He Hf Hw Hz].
  pose proof (main_InvExit env fl ops cl sched HN) as [Xw Xr Xx].
  fold s in Hc, Hp, Hn, He, Hf, Hw, Hz, Xw, Xr, Xx.
  assert (Hpos : 0 < workers fl)
    by (apply (main_Running_or_Exited env fl ops cl sched); right; exact Hex).
  rewrite Hex, Xw in Hz. specialize (Xx Hex).
  pose proof (sum_list_bound signalled (wpc s) signalled_le_1) as Hb.
  pose proof (sum_list_pointwise signalled past_loop (wpc s)
                (fun x => proj1 (signalled_past_loop x))) as Hsp.
  assert (Hfull : sum_list (signalled <$> wpc s) = length (wpc s)) by lia.
  split; [exact Hpos|]. split; [lia|].
  intros id pc Hi. apply (sum_list_full signalled (wpc s) signalled_le_1 Hfull id pc Hi).
Qed.

(** X12. [main] waits for ever when sentinels are missing.  On a
    channel that is not closed, if the dispatcher queues fewer nil
    sentinels than there are workers, no schedule takes [main] to its
    return: some worker stays blocked on the queue and [main] on the
    exit channel. *)
Theorem too_few_sentinels_block_main (env : Env) (fl : Flags) (ops : list (option Op))
        (sched : list Goroutine) :
  workers fl < 2 ^ 63 ->
  (sentinels ops < Z.to_nat (workers fl))%nat ->
  status (main env fl ops false sched) <> Exited.
Proof.
  intros HN Hfew Hex.
  destruct (exited_all_signalled env fl ops false sched HN Hex) as (_ & Hnil & _).
  destruct (main_Queue env fl ops false sched) as (k & Q1 & Q2).
  assert (Hk : k = O).
  { destruct k as [|k]; [reflexivity|]. destruct (Q2 ltac:(discriminate)) as [Hc _].
    rewrite main_closed in Hc. discriminate Hc. }
  subst k. simpl in Q1. rewrite app_nil_r in Q1.
  assert (Hs : sentinels ops =
               (count (is_sync PullNil) (trace (world (main env fl ops false sched))) +
                sentinels (feed (main env fl ops false sched)))%nat).
  { rewrite <- Q1 at 1. rewrite sentinels_app, sentinels_pull_values. reflexivity. }
  lia.
Qed.

Lemma too_few_sentinels_block_main_witness :
  status (main env_healthy stress_flags [Some an_op; None] false (sequential_schedule 2 1))
  <> Exited.
Proof.
  apply (too_few_sentinels_block_main env_healthy stress_flags [Some an_op; None]
           (sequential_schedule 2 1)).
  - reflexivity.
  - simpl. lia.
Defined.

(** X13. No op is left behind.  When the queue holds ops and then
    only sentinels (any number of them, the channel closed or not), and
    the worker count fits an [int]: once [main] has returned, under
    whatever schedule, the workers have pulled every op, in the queue's
    order, each was attempted (once, plus once per refresh) and
    counted, and the counter is the number of ops. *)
Theorem no_op_is_left_behind (env : Env) (fl : Flags) (ops : list Op) (m : nat) (cl : bool)
        (sched : list Goroutine) :
  workers fl < 2 ^ 63 ->
  let s := main env fl (map Some ops ++ replicate m None) cl sched in
  let t := trace (world s) in
  status s = Exited ->
  pulled t = ops /\
  count (is_sync Add) t = length ops /\
  opsExecuted s = wrap64 (Z.of_nat (length ops)) /\
  count is_execute t = (length ops + count is_refresh t)%nat.
Proof.
  intros HN s t Hex.
  destruct (exited_all_signalled env fl _ cl sched HN Hex) as (Hpos & Hnil & Hall).
  fold s in Hnil, Hall. fold t in Hnil.
  destruct (main_Queue env fl (map Some ops ++ replicate m None) cl sched) as (k & Q1 & _).
  fold s in Q1. fold t in Q1.
  rewrite <- app_assoc, <- replicate_add in Q1.
  assert (Hpulled : pulled t = ops).
  { rewrite <- feed_ops_pull_values.
    apply (all_ops_before_a_sentinel ops _ _ _ Q1).
    rewrite sentinels_pull_values. lia. }
  pose proof (main_Inv env fl (map Some ops ++ replicate m None) cl sched)
    as [Hc Hp _ _ _ _ _].
  fold s in Hc, Hp. fold t in Hc, Hp.
  destruct (main_Attempts env fl (map Some ops ++ replicate m None) cl sched) as [A1 _ _].
  fold s in A1. fold t in A1.
  assert (Hfl : sum_list (in_flight <$> wpc s) = O).
  { apply sum_list_none. intros i pc Hi. specialize (Hall i pc Hi).
    destruct pc; simpl in *; congruence. }
  assert (Hhd : sum_list (handled <$> wpc s) = O).
  { apply sum_list_none. intros i pc Hi. specialize (Hall i pc Hi).
    destruct pc; simpl in *; congruence. }
  assert (Hadd : count (is_sync Add) t = length ops).
  { rewrite <- Hpulled, length_pulled, Hp, Hfl. lia. }
  split; [exact Hpulled|]. split; [exact Hadd|]. split.
  - rewrite Hc, Hadd. reflexivity.
  - rewrite A1, Hhd, Hadd. lia.
Qed.

Lemma no_op_is_left_behind_witness :
  let s := main env_flaky stress_flags
                (map Some [an_op; mkOp 1396456709420 "query" "{}"] ++ replicate 2 None) false
                (sequential_schedule 2 2) in
  let t := trace (world s) in
  pulled t = [an_op; mkOp 1396456709420 "query" "{}"] /\
  count (is_sync Add) t = 2%nat /\
  opsExecuted s = wrap64 (Z.of_nat 2) /\
  count is_execute t = (2 + count is_refresh t)%nat.
Proof.
  apply (no_op_is_left_behind env_flaky stress_flags [an_op; mkOp 1396456709420 "query" "{}"]
           2 false (sequential_schedule 2 2)).
  - reflexivity.
  - vm_compute. reflexivity.
Defined.

(** ** A closed channel instead of sentinels *)



Section ClosedChannel.

Variable env : Env.
Hypothesis Dial_succeeds : forall h u, Dial env h u = None.





End ClosedChannel.



(** ** The reader is positioned at start-up only *)

(** The positioning calls the flags ask for. *)
Definition expected_positioning (fl : Flags) : list Event :=
  (if startTime fl >? 0 then [EvSetStartTime (reader_for fl) (startTime fl)] else []) ++
  (if numSkipOps fl >? 0 then [EvSkipOps (reader_for fl) (numSkipOps fl)] else []).

Lemma positioning_op_events (env : Env) (id : nat) (op : Op) (vb : bool) (h : list Event) :
  positioning (op_events env id op vb h) = [].
Proof.
  pose proof (op_events_only env id op vb h) as H.
  induction H as [|e t He _ IH]; simpl; [reflexivity|].
  destruct e; try discriminate He; exact IH.
Qed.

Lemma positioning_startup_trace (env : Env) (fl : Flags) :
  positioning (startup_trace (parsed env fl)) = expected_positioning fl.
Proof.
  unfold startup_trace, expected_positioning.
  rewrite !positioning_app, positioning_go_fetch, reader_for_parsed, startTime_parsed,
    numSkipOps_parsed.
  destruct (style _ =? "stress")%string, (startTime fl >? 0), (numSkipOps fl >? 0); reflexivity.
Qed.

(** X15. When start-up gets through, the calls that position the
    reader, over the whole run and under any schedule, are exactly
    these: [SetStartTime(startTime)] if [startTime > 0], then
    [SkipOps(numSkipOps)] if [numSkipOps > 0].  A zero or negative
    value is not an error: the call is left out; and no goroutine ever
    positions the reader again. *)
Theorem reader_is_positioned_at_startup_only (env : Env) (fl : Flags) (ops : list (option Op))
        (cl : bool) (sched : list Goroutine) (d : Dispatcher) (w : World) :
  main_startup env (mkWorld fl []) = Ok d w ->
  positioning (trace (world (main env fl ops cl sched))) = expected_positioning fl.
Proof.
  intros Hok. apply main_reach.
  - intros e w' E _. rewrite E in Hok. discriminate Hok.
  - intros _ _. apply positioning_startup_trace.
  - intros g s s' _ _ _ _ _ HP _ HM.
    move_cases HM; rewrite Bt, positioning_app, HP, ?positioning_op_events;
      cbn [positioning]; apply app_nil_r.
Qed.

Definition skip_only_flags : Flags :=
  mkFlags 10 5 "ops.json" DEFAULT_MGO_SOCKET_TIMEOUT (-1) "real" "localhost" false 2 "" "" None.

Lemma reader_is_positioned_at_startup_only_witness :
  positioning (trace (world (main env_flaky skip_only_flags three_ops false busy_schedule))) =
  [EvSkipOps (CyclicOpsReader (FileByLineOpsReader "ops.json")) 5].
Proof.
  eapply (reader_is_positioned_at_startup_only env_flaky skip_only_flags three_ops false
            busy_schedule).
  reflexivity.
Defined.

(** ** What the reports say *)

(** The counts the reports gave, in order. *)
Fixpoint reported (t : list Event) : list Z :=
  match t with
  | [] => []
  | EvLog (Info_executed n) :: t' => n :: reported t'
  | _ :: t' => reported t'
  end.

Fixpoint nondecreasing (l : list Z) : Prop :=
  match l with
  | [] => True
  | x :: l' => Forall (fun y => x <= y) l' /\ nondecreasing l'
  end.

Lemma reported_app (t1 t2 : list Event) : reported (t1 ++ t2) = reported t1 ++ reported t2.
Proof.
  induction t1 as [|e t1 IH]; simpl; [reflexivity|].
  destruct e as [| | | | | | | | |[]| | | | | | | | | |]; simpl; rewrite ?IH; reflexivity.
Qed.

Lemma reported_startup_only (t : list Event) : startup_only t -> reported t = [].
Proof.
  induction 1 as [|e t He _ IH]; simpl; [reflexivity|].
  destruct e; try discriminate He; exact IH.
Qed.

Lemma reported_op_events (env : Env) (id : nat) (op : Op) (vb : bool) (h : list Event) :
  reported (op_events env id op vb h) = [].
Proof.
  unfold op_events, verbose_log. cbv zeta.
  destruct (Execute env h id op) as [e|];
    [destruct (recognized_permanent e); [|destruct (Execute env _ id op) as [e2|]]|];
    destruct vb; reflexivity.
Qed.

Lemma nondecreasing_snoc (l : list Z) (x : Z) :
  nondecreasing l -> Forall (fun n => n <= x) l -> nondecreasing (l ++ [x]).
Proof.
  induction l as [|a l IH]; simpl; intros Hs Hb.
  - split; [constructor | exact I].
  - destruct Hs as [Ha Hs]. inversion Hb; subst. split.
    + apply Forall_app. split; [exact Ha | repeat constructor; assumption].
    + apply IH; assumption.
Qed.

Lemma main_reported (env : Env) (fl : Flags) (ops : list (option Op)) (cl : bool)
      (sched : list Goroutine) :
  Z.of_nat (length (feed_ops ops)) < 2 ^ 63 ->
  let s := main env fl ops cl sched in
  nondecreasing (reported (trace (world s))) /\
  Forall (fun n => 0 <= n <= opsExecuted s) (reported (trace (world s))).
Proof.
  intros Hb. cbv zeta. apply main_reach.
  - intros e w _ Hso. cbn [world trace]. rewrite (reported_startup_only _ Hso).
    split; [exact I | constructor].
  - intros _ _. cbn [spawned world trace].
    rewrite (reported_startup_only _ (startup_only_startup_trace _)).
    split; [exact I | constructor].
  - intros g s s' HI HI' _ _ _ [M1 M2] _ HM.
    destruct (counter_exact ops s HI Hb) as [C1 _].
    destruct (counter_exact ops s' HI' Hb) as [C1' _].
    assert (Hmono : opsExecuted s <= opsExecuted s').
    { move_cases HM; rewrite C1, C1', Bt, count_app; lia. }
    assert (M2' : Forall (fun n => 0 <= n <= opsExecuted s') (reported (trace (world s)))).
    { eapply Forall_impl; [exact M2|]. simpl. intros n Hn. lia. }
    assert (M3 : Forall (fun n => n <= opsExecuted s) (reported (trace (world s)))).
    { eapply Forall_impl; [exact M2|]. simpl. intros n Hn. lia. }
    move_cases HM; rewrite Bt, reported_app, ?reported_op_events; cbn [reported];
      rewrite ?app_nil_r; try (split; assumption).
    + split; [apply nondecreasing_snoc; assumption|].
      apply Forall_app. split; [exact M2'|]. repeat constructor; lia.
    + split; [apply nondecreasing_snoc; assumption|].
      apply Forall_app. split; [exact M2'|]. repeat constructor; lia.
Qed.

(** X16. Progress reports never go backwards and never overstate.
    With fewer than 2^63 ops queued, in every state [main] can reach,
    the counts the reports have given ("Executed %d ops") are in
    non-decreasing order, and each is between 0 and the counter's
    current value, which is at most the number of ops queued. *)
Theorem reports_never_go_backwards (env : Env) (fl : Flags) (ops : list (option Op))
        (cl : bool) (sched : list Goroutine) :
  Z.of_nat (length (feed_ops ops)) < 2 ^ 63 ->
  let s := main env fl ops cl sched in
  nondecreasing (reported (trace (world s))) /\
  Forall (fun n => 0 <= n <= opsExecuted s) (reported (trace (world s))) /\
  opsExecuted s <= Z.of_nat (length (feed_ops ops)).
Proof.
  intros Hb s. destruct (main_reported env fl ops cl sched Hb) as [M1 M2].
  destruct (counter_exact ops s (main_Inv env fl ops cl sched) Hb) as [C1 C2].
  split; [exact M1|]. split; [exact M2|]. lia.
Qed.

(** Worker 0 handles two ops; the reporter reports after each. *)
Definition reporting_schedule : list Goroutine :=
  [GoFetch 0; GoFetch 0; GoFetch 0; GoFetch 0; GoReporter; GoReporter; GoReporter; GoReporter;
   GoFetch 0; GoFetch 0; GoFetch 0; GoReporter; GoReporter; GoReporter].

Lemma reports_never_go_backwards_witness :
  let s := main env_healthy stress_flags three_ops false reporting_schedule in
  nondecreasing (reported (trace (world s))) /\
  Forall (fun n => 0 <= n <= opsExecuted s) (reported (trace (world s))) /\
  opsExecuted s <= Z.of_nat (length (feed_ops three_ops)).
Proof.
  exact (reports_never_go_backwards env_healthy stress_flags three_ops false reporting_schedule
           eq_refl).
Defined.

(** ** Op errors in the log *)

Definition is_op_error_log (e : Event) : bool :=
  match e with EvLog (Error_op _) => true | _ => false end.

Lemma op_events_error_log (env : Env) (id : nat) (op : Op) (vb : bool) (h : list Event) :
  (count is_op_error_log (op_events env id op vb h) <= 1)%nat /\
  (vb = false -> count is_op_error_log (op_events env id op vb h) = O).
Proof.
  unfold op_events, verbose_log. cbv zeta.
  destruct (Execute env h id op) as [e|];
    [destruct (recognized_permanent e); [|destruct (Execute env _ id op) as [e2|]]|];
    destruct vb; cbn; split; try lia; try reflexivity; discriminate.
Qed.

(** X17. Op errors in the log, over a whole run.  With [verbose] off
    the error an op ended with is never logged, under any schedule and
    whatever the executor answers; with [verbose] on there is at most
    one such entry per op handled. *)
Theorem op_errors_are_logged_only_when_verbose (env : Env) (fl : Flags)
        (ops : list (option Op)) (cl : bool) (sched : list Goroutine) :
  let s := main env fl ops cl sched in
  let t := trace (world s) in
  (verbose fl = false -> count is_op_error_log t = O) /\
  (count is_op_error_log t <= count (is_sync Add) t + sum_list (handled <$> wpc s))%nat.
Proof.
  cbv zeta. apply main_reach.
  - intros e w _ Hso. cbn [world trace wpc]. count_startup Hso. split; [reflexivity | lia].
  - intros _ _. pose proof (startup_only_startup_trace (parsed env fl)) as Hso.
    cbn [spawned world trace wpc]. count_startup Hso. split; [reflexivity | lia].
  - intros g s s' _ _ Hg _ _ [V1 V2] _ HM.
    move_cases HM; rewrite ?Bt, ?Bw, ?count_app;
      try match goal with
          | |- context [op_events ?e ?i ?o ?v ?h] =>
            destruct (op_events_error_log e i o v h) as (O1 & O2);
            rewrite Hg, verbose_parsed in O1, O2 |- *;
            rewrite (count_op_events (is_sync Add))
              by (intros [] ?; try discriminate; reflexivity)
          end;
      try match goal with
          | Hpc : wpc s !! ?i = Some ?x |- context [<[?i:=?y]> (wpc s)] =>
            pose proof (sum_list_insert handled _ _ _ y Hpc) as Hsum; cbn [handled] in Hsum
          end;
      cbn [count is_op_error_log is_sync sync_of Sync_eqb];
      (split; [intros Hv; specialize (V1 Hv); try specialize (O2 Hv); lia | lia]).
Qed.

(** ** Behind the last sentinel *)

Lemma sum_list_short (f : WorkerPc -> nat) (l : list WorkerPc) (i : nat) (x : WorkerPc) :
  (forall y, (f y <= 1)%nat) ->
  l !! i = Some x -> f x = O ->
  (sum_list (f <$> l) < length l)%nat.
Proof.
  intros Hf. revert i. induction l as [|a l IH]; intros i Hi Hx; [discriminate|].
  csimpl. pose proof (sum_list_bound f l Hf). pose proof (Hf a).
  destruct i as [|i]; simpl in Hi.
  - inversion Hi; subst. lia.
  - specialize (IH i Hi Hx). lia.
Qed.

Lemma past_loop_le_1 (pc : WorkerPc) : (past_loop pc <= 1)%nat.
Proof. destruct pc; simpl; lia. Qed.

(** X18. What is queued behind the last sentinel is never received.
    When the queue holds as many sentinels as there are workers and
    then more values, those values stay in the queue in every state
    [main] can reach, whether the channel is closed or not: each worker
    leaves its loop at the first nil it receives, so once the workers
    have taken the sentinels nobody receives any more.  Ops queued
    there are never executed. *)
Theorem nothing_is_received_behind_the_last_sentinel (env : Env) (fl : Flags)
        (pre rest : list (option Op)) (cl : bool) (sched : list Goroutine) :
  sentinels pre = Z.to_nat (workers fl) ->
  let s := main env fl (pre ++ rest) cl sched in
  exists left,
    feed s = left ++ rest /\ pull_values (trace (world s)) ++ left = pre.
Proof.
  intros HN. cbv zeta. apply main_reach.
  - intros e w _ Hso. exists pre. cbn [feed world trace].
    rewrite (pull_values_startup_only _ Hso). split; reflexivity.
  - intros _ _. exists pre. cbn [spawned feed world trace].
    rewrite (pull_values_startup_only _ (startup_only_startup_trace _)). split; reflexivity.
  - intros g s s' HI _ Hg _ Hst (left & K1 & K2) _ HM.
    assert (Hpull : forall id, wpc s !! id = Some W_Pull ->
                               exists x left', left = x :: left').
    { intros id Hpc.
      pose proof (sum_list_short past_loop (wpc s) id W_Pull past_loop_le_1 Hpc eq_refl) as Hlt.
      pose proof (inv_nils _ _ HI) as Hn. pose proof (inv_size _ _ HI) as Hz.
      rewrite Hst, Hg, workers_parsed in Hz.
      assert (Hs : sentinels pre =
                   (count (is_sync PullNil) (trace (world s)) + sentinels left)%nat).
      { rewrite <- K2 at 1. rewrite sentinels_app, sentinels_pull_values. reflexivity. }
      destruct left as [|x left']; [simpl in Hs; lia|]. eauto. }
    move_cases HM; rewrite Bt, Bf, pull_values_app, ?pull_values_op_events;
      cbn [pull_values]; rewrite ?app_nil_r;
      try (exists left; split; [assumption | reflexivity]).
    + match goal with Hpc : wpc s !! _ = Some W_Pull |- _ =>
        destruct (Hpull _ Hpc) as (x & left' & ->) end.
      match goal with Hf : feed s = _ |- _ => rewrite Hf in K1 end.
      simpl in K1. inversion K1; subst. exists left'. split; [reflexivity|].
      rewrite <- app_assoc. reflexivity.
    + match goal with Hpc : wpc s !! _ = Some W_Pull |- _ =>
        destruct (Hpull _ Hpc) as (x & left' & ->) end.
      match goal with Hf : feed s = _ |- _ => rewrite Hf in K1 end.
      simpl in K1. inversion K1; subst. exists left'. split; [reflexivity|].
      rewrite <- app_assoc. reflexivity.
    + match goal with Hpc : wpc s !! _ = Some W_Pull |- _ =>
        destruct (Hpull _ Hpc) as (x & left' & ->) end.
      match goal with Hf : feed s = _ |- _ => rewrite Hf in K1 end.
      discriminate K1.
Qed.

Lemma nothing_is_received_behind_the_last_sentinel_witness :
  let s := main env_healthy stress_flags ([None; None] ++ [Some an_op]) false
                (sequential_schedule 2 0) in
  exists left,
    feed s = left ++ [Some an_op] /\ pull_values (trace (world s)) ++ left = [None; None].
Proof.
  exact (nothing_is_received_behind_the_last_sentinel env_healthy stress_flags [None; None]
           [Some an_op] false (sequential_schedule 2 0) eq_refl).
Defined.

(** ** The defaults *)

Lemma flag_Set_keeps (name : string) (v : FlagValue) (g g' : Flags) :
  flag_Set name v g = Some g' ->
  (name <> "workers" -> workers g' = workers g) /\
  (name <> "maxOps" -> maxOps g' = maxOps g) /\
  (name <> "socketTimeout" -> socketTimeout g' = socketTimeout g).
Proof.
  unfold flag_Set. intros H.
  destruct v;
    repeat match type of H with
           | (if (?a =? ?b)%string then _ else _) = _ =>
             let E := fresh "E" in destruct (String.eqb_spec a b) as [E|E]
           end;
    try discriminate; inversion H; subst; cbn; repeat split; auto; congruence.
Qed.

Lemma flag_Parse_keeps (args : list (string * FlagValue)) (g g' : Flags) :
  flag_Parse args g = Some g' ->
  ((forall v, ~ In ("workers", v) args) -> workers g' = workers g) /\
  ((forall v, ~ In ("maxOps", v) args) -> maxOps g' = maxOps g) /\
  ((forall v, ~ In ("socketTimeout", v) args) -> socketTimeout g' = socketTimeout g).
Proof.
  revert g. induction args as [|[name v] rest IH]; intros g H; simpl in H.
  - inversion H. auto.
  - destruct (flag_Set name v g) as [g1|] eqn:E; [|discriminate].
    apply flag_Set_keeps in E. destruct E as (E1 & E2 & E3).
    destruct (IH g1 H) as (I1 & I2 & I3).
    repeat split; intros Hno;
      [rewrite I1, E1 | rewrite I2, E2 | rewrite I3, E3]; auto;
      try (intros ->; apply (Hno v); left; reflexivity);
      intros v' Hin; apply (Hno v'); right; exact Hin.
Qed.

(** X19. The defaults of [init] are what runs.  On a command line
    without "-workers", "-maxOps" and "-socketTimeout": [workers] is 10
    and a run that starts has 10 workers; the op limit is 4294967295;
    and every socket timeout a worker sets is one minute
    (60000000000 ns), as the help text of "-socketTimeout" says. *)
Theorem defaults_are_in_force (args : list (string * FlagValue)) (g : Flags) (env : Env)
        (ops : list (option Op)) (cl : bool) (sched : list Goroutine) :
  flag_Parse args default_flags = Some g ->
  (forall v, ~ In ("workers", v) args) ->
  (forall v, ~ In ("maxOps", v) args) ->
  (forall v, ~ In ("socketTimeout", v) args) ->
  let s := main env g ops cl sched in
  workers g = 10 /\ limit g = 4294967295 /\
  (status s = Running \/ status s = Exited -> length (wpc s) = 10%nat) /\
  (forall id ns, In (EvSetSocketTimeout id ns) (trace (world s)) -> ns = 60000000000).
Proof.
  intros H Hw Hm Ht s. apply flag_Parse_keeps in H. destruct H as (K1 & K2 & K3).
  specialize (K1 Hw). specialize (K2 Hm). specialize (K3 Ht). cbn in K1, K2, K3.
  split; [exact K1|]. split; [unfold limit; rewrite K2; reflexivity|]. split.
  - intros Hst. pose proof (inv_size _ _ (main_Inv env g ops cl sched)) as Hz. fold s in Hz.
    assert (Hg : workers (globals (world s)) = 10).
    { destruct (main_globals env g ops cl sched) as [E | E]; fold s in E; rewrite E;
        [|rewrite workers_parsed]; exact K1. }
    rewrite Hg in Hz. destruct Hst as [Hst | Hst]; rewrite Hst in Hz; exact Hz.
  - intros id ns Hin.
    rewrite (ses_timeout _ (main_Sessions env g ops cl sched) id ns Hin). fold s.
    destruct (main_globals env g ops cl sched) as [E | E]; fold s in E; rewrite E;
      [|rewrite socketTimeout_parsed]; exact K3.
Qed.

Lemma defaults_are_in_force_witness :
  exists g,
    flag_Parse [("style", StringValue "stress"); ("url", StringValue "localhost")]
               default_flags = Some g /\
    let s := main env_healthy g [Some an_op; None] false [GoFetch 3; GoFetch 3] in
    workers g = 10 /\ limit g = 4294967295 /\
    (status s = Running \/ status s = Exited -> length (wpc s) = 10%nat) /\
    (forall id ns, In (EvSetSocketTimeout id ns) (trace (world s)) -> ns = 60000000000).
Proof.
  eexists. split; [reflexivity|].
  apply (defaults_are_in_force
           [("style", StringValue "stress"); ("url", StringValue "localhost")]).
  - reflexivity.
  - intros v [H | [H | []]]; discriminate H.
  - intros v [H | [H | []]]; discriminate H.
  - intros v [H | [H | []]]; discriminate H.
Defined.
